(** * command-t: the fuzzy match scorer of [ruby/command-t/match.c]

    A shallow embedding of [recursive_match] and [calculate_match].

    - A C [double] is a binary64 float of the kernel ([PrimFloat]), so the
      scores computed here are, bit for bit, the ones the C code computes.
    - A [char] is its code as a [Z]; a string is the list of its codes.
    - A [long] index is a [Z].  Lengths are those of strings held in memory,
      far below the point where the index arithmetic could wrap.
    - The memo table ([double memo[memo_size]]) is threaded as state through a
      small state-and-error monad; an access outside the table, which is
      undefined in C, stops the computation with [OutOfBounds]. *)

From Stdlib Require Import ZArith List String Ascii Bool Lia Floats Uint63.
Import ListNotations.

Open Scope Z_scope.
Set Warnings "-inexact-float".

(** ** Characters and strings *)

Definition chars := list Z.

Definition code (a : ascii) : Z := Z.of_N (N_of_ascii a).

Definition codes (s : string) : chars := map code (list_ascii_of_string s).

(** [p[i]]; Ruby strings are NUL-terminated, so the byte just after the end
    reads as 0. *)
Definition char_at (p : chars) (i : Z) : Z := nth (Z.to_nat i) p 0.

Definition len (p : chars) : Z := Z.of_nat (List.length p).

Definition ch (s : string) : Z :=
  match s with
  | String a _ => code a
  | EmptyString => 0
  end.

(** ** Doubles *)

Definition NON_MATCH : float := (-1e9)%float.
Definition UNSET : float := 0x1.fffffffffffffp+1023%float.

(** Conversion of a non-negative [long] to [double]. *)
Definition double_of_long (z : Z) : float := of_uint63 (Uint63.of_Z z).

Definition fgt (a b : float) : bool := PrimFloat.ltb b a.
Definition fne (a b : float) : bool := negb (PrimFloat.eqb a b).

(** ** The memo table as state *)

Inductive outcome (A : Type) : Type :=
| Done (a : A)
| OutOfBounds (idx : Z).
Arguments Done {A} a.
Arguments OutOfBounds {A} idx.

(** The table and, as ghost state, the cells [(needle_idx, haystack_idx)] at
    which it was addressed so far, latest first.  The log is never read by
    the program. *)
Record memo_state : Type := {
  cells : list float;
  visited : list (Z * Z)
}.

Definition memoM (A : Type) : Type := memo_state -> outcome (A * memo_state).

Definition ret {A} (a : A) : memoM A := fun s => Done (a, s).

Definition bind {A B} (c : memoM A) (k : A -> memoM B) : memoM B :=
  fun s =>
    match c s with
    | Done (a, s') => k a s'
    | OutOfBounds i => OutOfBounds i
    end.

Notation "x <- c ;; k" := (bind c (fun x => k))
  (at level 61, c at next level, right associativity).

Definition in_table (idx : Z) (t : list float) : bool :=
  (0 <=? idx) && (idx <? Z.of_nat (List.length t)).

Fixpoint store (t : list float) (n : nat) (v : float) : list float :=
  match t, n with
  | [], _ => []
  | _ :: t', O => v :: t'
  | x :: t', S n' => x :: store t' n' v
  end.

(** [&m->memo[idx]] followed by a read of the cell. *)
Definition memo_read (cell : Z * Z) (idx : Z) : memoM float :=
  fun s =>
    if in_table idx (cells s)
    then Done (nth (Z.to_nat idx) (cells s) UNSET,
               {| cells := cells s; visited := cell :: visited s |})
    else OutOfBounds idx.

(** [*memoized = v]. *)
Definition memo_write (idx : Z) (v : float) : memoM unit :=
  fun s =>
    if in_table idx (cells s)
    then Done (tt, {| cells := store (cells s) (Z.to_nat idx) v;
                      visited := visited s |})
    else OutOfBounds idx.

(** ** [matchinfo_t] *)

Record matchinfo_t : Type := {
  haystack_p : chars;
  haystack_len : Z;
  needle_p : chars;
  needle_len : Z;
  rightmost_match_p : list Z;
  max_score_per_char : float;
  always_show_dot_files : bool;
  never_show_dot_files : bool;
  case_sensitive : bool;
  compute_all_scorings : bool
}.

(** ** The [for] loop of [recursive_match] *)

Inductive flow : Type :=
| Continue (score : float)   (* go on with the next [i] *)
| Break (score : float)      (* [break] *)
| Return (v : float).        (* [return *memoized = v] from inside the loop *)

(** [for (i = from; i <= bound; i++) body], run for [n = bound + 1 - from]
    iterations at most; the value is what the function then memoizes and
    returns. *)
Fixpoint for_loop (n : nat) (i : Z) (score : float)
    (body : Z -> float -> memoM flow) : memoM float :=
  match n with
  | O => ret score
  | S n' =>
      f <- body i score ;;
      match f with
      | Continue score' => for_loop n' (i + 1) score' body
      | Break score' => ret score'
      | Return v => ret v
      end
  end.

(** Lines 78-104: the factor applied to [max_score_per_char]. *)
Definition factor_of (last curr distance : Z) : float :=
  if last =? ch "/" then 0.9%float
  else if (last =? ch "-") || (last =? ch "_") || (last =? ch " ") ||
          ((ch "0" <=? last) && (last <=? ch "9")) then 0.8%float
  else if (ch "a" <=? last) && (last <=? ch "z") &&
          (ch "A" <=? curr) && (curr <=? ch "Z") then 0.8%float
  else if last =? ch "." then 0.7%float
  else ((1 / double_of_long distance) * 0.75)%float.

Definition score_for_char_of (m : matchinfo_t) (haystack_idx i : Z) : float :=
  let distance := i - haystack_idx in
  if distance >? 1
  then (max_score_per_char m *
        factor_of (char_at (haystack_p m) (i - 1)) (char_at (haystack_p m) i)
                  distance)%float
  else max_score_per_char m.

(** Lines 58-71: the dot-file test and the folding of the haystack character.
    [None] is the [return *memoized = NON_MATCH] of line 66. *)
Definition fold_haystack_char (m : matchinfo_t) (c : Z) (i : Z) : option Z :=
  let d := char_at (haystack_p m) i in
  if d =? ch "." then
    if (i =? 0) || (char_at (haystack_p m) (i - 1) =? ch "/") then
      let dot_search := c =? ch "." in
      if never_show_dot_files m ||
         (negb dot_search && negb (always_show_dot_files m))
      then None
      else Some d
    else Some d
  else if (ch "A" <=? d) && (d <=? ch "Z") && negb (case_sensitive m)
  then Some (d + (ch "a" - ch "A"))
  else Some d.

Definition last_rightmost (m : matchinfo_t) : Z :=
  nth (Z.to_nat (needle_len m - 1)) (rightmost_match_p m) 0.

(** Lines 58-115: one iteration of the loop; [call] is
    [recursive_match(m, _, needle_idx + 1)]. *)
Definition loop_body (m : matchinfo_t) (call : Z -> memoM float)
    (haystack_idx c i : Z) (score : float) : memoM flow :=
  match fold_haystack_char m c i with
  | None => ret (Return NON_MATCH)
  | Some d =>
      if c =? d then
        r <- call (i + 1) ;;
        let new_score := (score_for_char_of m haystack_idx i + r)%float in
        if fgt new_score score
        then if negb (compute_all_scorings m)
             then ret (Break new_score)
             else ret (Continue new_score)
        else ret (Continue score)
      else ret (Continue score)
  end.

(** ** [recursive_match]

    The recursion is on [rest = needle_len - needle_idx], the number of needle
    characters still to place: every recursive call of the C function is at
    [needle_idx + 1], and [calculate_match] starts it at [needle_idx = 0].
    Line 51 repeats the test of line 36 and is never reached. *)
Fixpoint recursive_match_rest (rest : nat) (m : matchinfo_t)
    (haystack_idx : Z) : memoM float :=
  let needle_idx := needle_len m - Z.of_nat rest in
  match rest with
  | O => ret 0%float
  | S rest' =>
      if (needle_idx >? haystack_idx) ||
         (haystack_idx + (needle_len m - needle_idx) >? last_rightmost m + 1)
      then ret NON_MATCH
      else
        let idx := needle_idx * needle_len m + haystack_idx in
        memoized <- memo_read (needle_idx, haystack_idx) idx ;;
        if fne memoized UNSET then ret memoized
        else
          let c := char_at (needle_p m) needle_idx in
          let bound := nth (Z.to_nat needle_idx) (rightmost_match_p m) 0 in
          v <- for_loop (Z.to_nat (bound + 1 - haystack_idx)) haystack_idx
                 NON_MATCH
                 (loop_body m (recursive_match_rest rest' m) haystack_idx c) ;;
          _ <- memo_write idx v ;;
          ret v
  end.

Definition recursive_match (m : matchinfo_t) (haystack_idx needle_idx : Z)
    : memoM float :=
  recursive_match_rest (Z.to_nat (needle_len m - needle_idx)) m haystack_idx.

(** ** The backward scan of [calculate_match] (lines 166-193) *)

Definition lower_of (c : Z) : Z :=
  if (ch "A" <=? c) && (c <=? ch "Z") then c + (ch "a" - ch "A") else c.

Record scan_state : Type := {
  cursor : Z;            (* [needle_idx] *)
  mask : Z;
  rightmost : list Z     (* [rightmost_match_p] *)
}.

Fixpoint update (l : list Z) (n : nat) (v : Z) : list Z :=
  match l, n with
  | [], _ => []
  | _ :: l', O => v :: l'
  | x :: l', S n' => x :: update l' n' v
  end.

Section Scorer.

(** [1 << k] on a 32-bit [int] is defined by C for [0 <= k < 31] only; what
    the platform yields for any other count is left open. *)
Variable shl_undef : Z -> Z.

Definition shl_one (k : Z) : Z :=
  if (0 <=? k) && (k <? 31) then Z.shiftl 1 k else shl_undef k.

Definition scan_step (hp np : chars) (case_sens compute_bitmasks : bool)
    (i : Z) (st : scan_state) : scan_state :=
  let c0 := char_at hp i in
  let lower := lower_of c0 in
  let c := if negb case_sens then lower else c0 in
  let mask' :=
    if compute_bitmasks then Z.lor (mask st) (shl_one (lower - ch "a"))
    else mask st in
  if (cursor st >=? 0) && (c =? char_at np (cursor st))
  then {| cursor := cursor st - 1;
          mask := mask';
          rightmost := update (rightmost st) (Z.to_nat (cursor st)) i |}
  else {| cursor := cursor st; mask := mask'; rightmost := rightmost st |}.

(** [for (i = cnt - 1; i >= 0; i--)]. *)
Fixpoint scan (hp np : chars) (case_sens compute_bitmasks : bool)
    (cnt : nat) (st : scan_state) : scan_state :=
  match cnt with
  | O => st
  | S i =>
      scan hp np case_sens compute_bitmasks i
        (scan_step hp np case_sens compute_bitmasks (Z.of_nat i) st)
  end.

(** Lines 149-154: [for (i = from; i < haystack_len; i++)], looking for a [.]
    that starts a path segment. *)
Fixpoint dot_file_from (hp : chars) (n : nat) (i : Z) : bool :=
  match n with
  | O => false
  | S n' =>
      if (char_at hp i =? ch ".") &&
         ((i =? 0) || (char_at hp (i - 1) =? ch "/"))
      then true
      else dot_file_from hp n' (i + 1)
  end.

Definition has_dot_file (hp : chars) : bool :=
  dot_file_from hp (List.length hp) 0.

(** ** [calculate_match] *)

(** Line 211. *)
Definition final_score (score : float) : float :=
  if PrimFloat.eqb score NON_MATCH then 0%float else score.

(** What [calculate_match] has decided when it reaches line 209: either it
    has returned already (or skipped the normal case), or it calls
    [recursive_match] on a fresh table. *)
Inductive prepared : Type :=
| Early (score : float) (haystack_bitmask : Z)
| Search (m : matchinfo_t) (memo_size : Z) (haystack_bitmask : Z).

Definition prepare (haystack needle : string)
    (case_sens always_show never_show all_scorings : bool)
    (needle_bitmask haystack_bitmask : Z) : prepared :=
  let hp := codes haystack in
  let np := codes needle in
  let hl := len hp in
  let nl := len np in
  let score := 1%float in
  let compute_bitmasks := haystack_bitmask =? 0 in
  let msc := ((1 / double_of_long hl + 1 / double_of_long nl) / 2)%float in
  if nl =? 0 then
    if negb always_show && has_dot_file hp
    then Early 0%float haystack_bitmask
    else Early (final_score score) haystack_bitmask
  else if hl >? 0 then
    if negb (haystack_bitmask =? 0) &&
       negb (Z.land needle_bitmask haystack_bitmask =? needle_bitmask)
    then Early 0%float haystack_bitmask
    else
      let st := scan hp np case_sens compute_bitmasks (Z.to_nat hl)
                  {| cursor := nl - 1; mask := 0;
                     rightmost := repeat 0 (Z.to_nat nl) |} in
      let bitmask' := if compute_bitmasks then mask st else haystack_bitmask in
      if negb (cursor st =? -1) then Early 0%float bitmask'
      else
        let m := {| haystack_p := hp; haystack_len := hl;
                    needle_p := np; needle_len := nl;
                    rightmost_match_p := rightmost st;
                    max_score_per_char := msc;
                    always_show_dot_files := always_show;
                    never_show_dot_files := never_show;
                    case_sensitive := case_sens;
                    compute_all_scorings := all_scorings |} in
        let haystack_limit := last_rightmost m + 1 in
        let memo_size := haystack_limit * nl - (nl * nl - nl) in
        Search m memo_size bitmask'
  else Early (final_score score) haystack_bitmask.

Definition fresh_memo (memo_size : Z) : memo_state :=
  {| cells := repeat UNSET (Z.to_nat memo_size); visited := [] |}.

(** The score and the value left in [*haystack_bitmask]. *)
Definition calculate_match (haystack needle : string)
    (case_sens always_show never_show all_scorings : bool)
    (needle_bitmask haystack_bitmask : Z) : outcome (float * Z) :=
  match prepare haystack needle case_sens always_show never_show all_scorings
          needle_bitmask haystack_bitmask with
  | Early score bitmask => Done (score, bitmask)
  | Search m memo_size bitmask =>
      match recursive_match m 0 0 (fresh_memo memo_size) with
      | Done (score, _) => Done (final_score score, bitmask)
      | OutOfBounds idx => OutOfBounds idx
      end
  end.

(** The cells at which one call addressed the memo table, in order. *)
Definition memo_cells_visited (haystack needle : string)
    (case_sens always_show never_show all_scorings : bool)
    (needle_bitmask haystack_bitmask : Z) : list (Z * Z) :=
  match prepare haystack needle case_sens always_show never_show all_scorings
          needle_bitmask haystack_bitmask with
  | Early _ _ => []
  | Search m memo_size _ =>
      match recursive_match m 0 0 (fresh_memo memo_size) with
      | Done (_, s) => rev (visited s)
      | OutOfBounds _ => []
      end
  end.

End Scorer.

(** The score alone, as the caller of [calculate_match] receives it. *)
Definition score_of (o : outcome (float * Z)) : outcome float :=
  match o with
  | Done (score, _) => Done score
  | OutOfBounds idx => OutOfBounds idx
  end.

Definition score_match (shl_undef : Z -> Z) (haystack needle : string)
    (case_sens always_show never_show all_scorings : bool)
    (needle_bitmask haystack_bitmask : Z) : outcome float :=
  score_of (calculate_match shl_undef haystack needle case_sens always_show
              never_show all_scorings needle_bitmask haystack_bitmask).

(** One platform's answer to the undefined shifts: x86 takes the count
    modulo 32, and bit 31 is the sign of the [int]. *)
Definition shl_x86 (k : Z) : Z :=
  if k mod 32 =? 31 then - Z.shiftl 1 31 else Z.shiftl 1 (k mod 32).

(** ** Notions used to state the properties *)

(** [m] with its [compute_all_scorings] flag replaced. *)
Definition with_all_scorings (m : matchinfo_t) (b : bool) : matchinfo_t :=
  {| haystack_p := haystack_p m; haystack_len := haystack_len m;
     needle_p := needle_p m; needle_len := needle_len m;
     rightmost_match_p := rightmost_match_p m;
     max_score_per_char := max_score_per_char m;
     always_show_dot_files := always_show_dot_files m;
     never_show_dot_files := never_show_dot_files m;
     case_sensitive := case_sensitive m;
     compute_all_scorings := b |}.

(** Position [i] of the haystack holds a [.] that starts a path segment. *)
Definition dot_file_at (hp : chars) (i : Z) : bool :=
  (char_at hp i =? ch ".") && ((i =? 0) || (char_at hp (i - 1) =? ch "/")).

(** The character a haystack character is compared as: folded to lower case
    unless the match is case sensitive.  The needle is compared as it is. *)
Definition haystack_key (case_sens : bool) (d : Z) : Z :=
  if case_sens then d else lower_of d.

(** [np] is a subsequence of [hp]: greedy, leftmost matching. *)
Fixpoint is_subsequence (np hp : chars) : bool :=
  match hp with
  | [] => match np with [] => true | _ :: _ => false end
  | d :: hp' =>
      match np with
      | [] => true
      | c :: np' =>
          if c =? d then is_subsequence np' hp' else is_subsequence np hp'
      end
  end.

(** [rightmost_match_p[k]] during the scan. *)
Definition rightmost_at (st : scan_state) (k : Z) : Z :=
  nth (Z.to_nat k) (rightmost st) 0.

(** The position recorded for the next needle character, or the end of the
    haystack for the last one. *)
Definition next_match (hp np : chars) (st : scan_state) (k : Z) : Z :=
  if k + 1 <? len np then rightmost_at st (k + 1) else len hp.

(** What holds of the scan state when the positions from [i] on have been
    looked at: the entries above the cursor are in place, each the last
    position before the next entry that holds its needle character, and the
    character at the cursor has not been seen yet. *)
Definition scanned (hp np : chars) (cs : bool) (i : Z) (st : scan_state)
    : Prop :=
  -1 <= cursor st < len np /\
  List.length (rightmost st) = List.length np /\
  (forall k, cursor st < k < len np ->
     i <= rightmost_at st k < len hp /\
     haystack_key cs (char_at hp (rightmost_at st k)) = char_at np k /\
     (k + 1 < len np -> rightmost_at st k < rightmost_at st (k + 1)) /\
     (forall j, rightmost_at st k < j < next_match hp np st k ->
                haystack_key cs (char_at hp j) <> char_at np k)) /\
  (0 <= cursor st ->
   forall j, i <= j < next_match hp np st (cursor st) ->
             haystack_key cs (char_at hp j) <> char_at np (cursor st)).

(** The scan state of line 168. *)
Definition scan_start (np : chars) : scan_state :=
  {| cursor := len np - 1; mask := 0;
     rightmost := repeat 0 (Z.to_nat (len np)) |}.

(** [ps] places the needle in the haystack: one position per needle
    character, increasing from [lo] on, each holding its character. *)
Fixpoint embeds_from (key : Z -> Z) (hp np : chars) (ps : list Z) (lo : Z)
    : bool :=
  match np, ps with
  | [], [] => true
  | c :: np', p :: ps' =>
      (lo <=? p) && (p <? len hp) && (key (char_at hp p) =? c) &&
      embeds_from key hp np' ps' (p + 1)
  | _, _ => false
  end.

(** The value left in [*haystack_bitmask] when line 209 is reached or the
    function has returned before. *)
Definition bitmask_of (p : prepared) : Z :=
  match p with
  | Early _ b => b
  | Search _ _ b => b
  end.

Definition is_letter (c : Z) : bool :=
  ((ch "a" <=? c) && (c <=? ch "z")) || ((ch "A" <=? c) && (c <=? ch "Z")).

(** The cells the guard of lines 39-45 lets through. *)
Definition cell_in_region (m : matchinfo_t) (cell : Z * Z) : Prop :=
  0 <= fst cell < needle_len m /\
  fst cell <= snd cell /\
  snd cell + (needle_len m - fst cell) <= last_rightmost m + 1.

(** The index of line 48. *)
Definition memo_index (m : matchinfo_t) (cell : Z * Z) : Z :=
  fst cell * needle_len m + snd cell.

(** [p] with another value left in [*haystack_bitmask]. *)
Definition with_bitmask (p : prepared) (b : Z) : prepared :=
  match p with
  | Early score _ => Early score b
  | Search m size _ => Search m size b
  end.

(** A one-character call: haystack ["A"], needle ["a"], case-insensitive. *)
Definition A_in_a : matchinfo_t :=
  {| haystack_p := [65]; haystack_len := 1;
     needle_p := [97]; needle_len := 1;
     rightmost_match_p := [0]; max_score_per_char := 1%float;
     always_show_dot_files := false; never_show_dot_files := false;
     case_sensitive := false; compute_all_scorings := false |}.

(** The call for needle ["ad"] and haystack ["abcd"], as [calculate_match]
    sets it up. *)
Definition ad_in_abcd : matchinfo_t :=
  {| haystack_p := [97; 98; 99; 100]; haystack_len := 4;
     needle_p := [97; 100]; needle_len := 2;
     rightmost_match_p := [0; 3]; max_score_per_char := 0.375%float;
     always_show_dot_files := false; never_show_dot_files := false;
     case_sensitive := false; compute_all_scorings := true |}.

(** ** Notions used to compare the exhaustive scan with the fast path *)

(** [rightmost_match_p[k]]. *)
Definition rightmost_of (m : matchinfo_t) (k : Z) : Z :=
  nth (Z.to_nat k) (rightmost_match_p m) 0.

(** Line 66 returns at haystack position [i] when the needle character of
    index [k] is sought: position [i] holds a [.] that starts a path segment,
    and the options forbid it for that needle character. *)
Definition walled (m : matchinfo_t) (k i : Z) : bool :=
  match fold_haystack_char m (char_at (needle_p m) k) i with
  | None => true
  | Some _ => false
  end.

(** [from], [from + 1], ..., [from + n - 1]. *)
Definition positions (from : Z) (n : nat) : list Z :=
  map (fun j => from + Z.of_nat j) (seq 0 n).

(** The first of the [n] positions from [i] on at which the loop of line 57
    stops scanning for the needle character [c]: it carries [c], or line 66
    returns there; [i + n] when there is none. *)
Fixpoint first_from (m : matchinfo_t) (c : Z) (n : nat) (i : Z) : Z :=
  match n with
  | O => i
  | S n' =>
      match fold_haystack_char m c i with
      | Some d => if c =? d then i else first_from m c n' (i + 1)
      | None => i
      end
  end.

(** The least [haystack_idx] with which [recursive_match] is called for the
    needle index [k]: 0 for the first, then one past the first match of the
    needle character before. *)
Fixpoint leftmost_of (m : matchinfo_t) (k : nat) : Z :=
  match k with
  | O => 0
  | S k' =>
      let lo := leftmost_of m k' in
      first_from m (char_at (needle_p m) (Z.of_nat k'))
        (Z.to_nat (rightmost_of m (Z.of_nat k') + 1 - lo)) lo + 1
  end.

(** For some needle index [k], one of the haystack positions
    [leftmost_of k .. rightmost_match_p[k]] makes line 66 return.  The loop
    of line 57 runs, for the needle index [k], over positions of this range
    only. *)
Definition dot_wall_in_range (m : matchinfo_t) : bool :=
  existsb (fun k =>
             existsb (walled m (Z.of_nat k))
                     (positions (leftmost_of m k)
                        (Z.to_nat (rightmost_of m (Z.of_nat k) + 1 -
                                   leftmost_of m k))))
          (seq 0 (Z.to_nat (needle_len m))).

(** The same of a call of [calculate_match], on the table of rightmost
    matches that it computes; [false] when [recursive_match] is not called. *)
Definition dot_wall_in_scan_range (shl : Z -> Z) (haystack needle : string)
    (case_sens always_show never_show : bool)
    (needle_bitmask haystack_bitmask : Z) : bool :=
  match prepare shl haystack needle case_sens always_show never_show false
          needle_bitmask haystack_bitmask with
  | Early _ _ => false
  | Search m _ _ => dot_wall_in_range m
  end.

(** Every cell of the memo table is still [UNSET]. *)
Definition all_unset (s : memo_state) : Prop :=
  Forall (fun v => v = UNSET) (cells s).

(** ** Notions used to reason on the rounding of doubles

    The operations on [double] are those of the library's specification of
    binary64 ([SpecFloat]): a result is the exact value, shifted to the
    exponent of its magnitude with a round bit and a sticky bit, and rounded
    to nearest even.  The definitions below name the steps of that
    computation on integers. *)

(** Number of binary digits. *)
Definition digits (m : Z) : Z := Zdigits2 m.

(** The exponent of a binary64 number of magnitude [d]. *)
Definition fexp64 (d : Z) : Z := Z.max (d - 53) (-1074).

(** A shifted mantissa with its round and sticky bits, as one integer:
    mantissa, round bit, sticky bit from the most significant end. *)
Definition rcode (mrs : shr_record) : Z :=
  4 * shr_m mrs + 2 * Z.b2z (shr_r mrs) + Z.b2z (shr_s mrs).

(** The code of a location (exact, below, at or above the half). *)
Definition locc (l : location) : Z :=
  match l with
  | loc_Exact => 0
  | loc_Inexact Lt => 1
  | loc_Inexact Eq => 2
  | loc_Inexact Gt => 3
  end.

(** One shift to the right ([shr_1]) on codes: the bits that leave are kept
    in the sticky bit. *)
Definition sshift (c : Z) : Z := 2 * (c / 4) + (if c mod 4 =? 0 then 0 else 1).

(** Rounding to nearest even ([round_nearest_even]) on codes. *)
Definition rne (c : Z) : Z :=
  c / 4 + (if (c mod 4 =? 3) || ((c mod 4 =? 2) && Z.odd (c / 4)) then 1 else 0).

(** [n] shifts to the right, on records and on codes. *)
Definition shiftn (n : nat) (mrs : shr_record) : shr_record := Nat.iter n shr_1 mrs.
Definition ssn (n : nat) (c : Z) : Z := Nat.iter n sshift c.

(** The code, at exponent [E], of the value [m * 2^e]. *)
Definition kcode (m e E : Z) : Z :=
  if E <=? e then 4 * (m * 2 ^ (e - E)) else ssn (Z.to_nat (E - e)) (4 * m).

(** The end of [binary_round_aux]: the rounded mantissa [M] is shifted once
    more if the rounding carried, and the overflow is tested. *)
Definition finish (sx : bool) (M e' : Z) : spec_float :=
  let '(mrs'', e'') := shr_fexp prec emax M e' loc_Exact in
  match shr_m mrs'' with
  | Z0 => S754_zero sx
  | Zpos m => if e'' <=? emax - prec then S754_finite sx m e'' else S754_infinity sx
  | Zneg _ => S754_nan
  end.

(** The double of mantissa [m] and exponent [e]. *)
Definition encode (s : bool) (m e : Z) : spec_float :=
  match m with
  | Zpos p => if e <=? 971 then S754_finite s p e else S754_infinity s
  | Z0 => S754_zero s
  | Zneg _ => S754_nan
  end.

(** A mantissa below 2^53, and at least 2^52 above the least exponent. *)
Definition canon (m e : Z) : Prop :=
  -1074 <= e /\ 0 <= m < 2 ^ 53 /\ (-1074 < e -> 2 ^ 52 <= m).

(** What comes out of the rounding: the mantissa may have reached 2^53. *)
Definition rounded (m e : Z) : Prop :=
  -1074 <= e /\ 0 <= m <= 2 ^ 53 /\ (-1074 < e -> 2 ^ 52 <= m).

Definition renorm (m e : Z) : Z * Z :=
  if m =? 2 ^ 53 then (2 ^ 52, e + 1) else (m, e).

(** Not a NaN, and not below zero. *)
Definition nonneg (x : spec_float) : Prop :=
  match x with
  | S754_zero _ => True
  | S754_infinity s | S754_finite s _ _ => s = false
  | S754_nan => False
  end.

(** A positive normal number: 53 digits, and a magnitude [53 + e] within
    [lo .. hi]. *)
Definition normal (x : spec_float) (lo hi : Z) : Prop :=
  exists m e, x = S754_finite false m e /\ digits (Z.pos m) = 53 /\
              lo <= 53 + e <= hi.

(** Above zero: [+infinity] or a positive normal number. *)
Definition big (x : spec_float) : Prop :=
  x = S754_infinity false \/ normal x (-400) 400.

Open Scope string_scope.
Open Scope list_scope.
Open Scope Z_scope.

(** * Properties *)

(** ** Floats that are told apart by evaluation *)

(** [Done] is injective, and two floats with different images under some
    boolean test differ. *)
Lemma Done_float_neq (a b : float) (test : float -> bool) :
  test a <> test b -> @Done float a <> Done b.
Proof. intros H E. apply H. injection E as ->. reflexivity. Qed.

(** ** Order of doubles, from the specification of the comparisons *)

Lemma SFltb_neq a b : SFltb a b = true -> SFeqb b a = false.
Proof.
  unfold SFltb, SFeqb.
  destruct a as [sa|sa| |sa ma ea], b as [sb|sb| |sb mb eb]; cbn;
    try discriminate; try reflexivity;
    repeat match goal with s : bool |- _ => destruct s end;
    try discriminate; try reflexivity;
    rewrite (Z.compare_antisym ea eb), !Pos.compare_cont_spec;
    cbn [Pos.switch_Eq]; rewrite (Pos.compare_antisym ma mb);
    destruct (ea ?= eb), (ma ?= mb)%positive; cbn;
    try discriminate; try reflexivity.
Qed.

Lemma ltb_neq (a b : float) :
  PrimFloat.ltb a b = true -> PrimFloat.eqb b a = false.
Proof. rewrite FloatAxioms.ltb_spec, FloatAxioms.eqb_spec. apply SFltb_neq. Qed.

(** ** Dot-files and the return of line 66 *)

Lemma dot_file_from_false hp n i :
  dot_file_from hp n i = false ->
  forall j, i <= j < i + Z.of_nat n -> dot_file_at hp j = false.
Proof.
  revert i. induction n as [|n IH]; intros i H j Hj; [lia|].
  cbn [dot_file_from] in H. fold (dot_file_at hp i) in H.
  destruct (dot_file_at hp i) eqn:E; [discriminate|].
  destruct (Z.eq_dec j i) as [->|Hne]; [exact E|].
  apply (IH (i + 1) H). lia.
Qed.

Lemma char_at_beyond hp j : len hp <= j -> char_at hp j = 0.
Proof.
  intros H. unfold char_at. apply nth_overflow. unfold len in H. lia.
Qed.

Lemma has_dot_file_false hp j :
  has_dot_file hp = false -> 0 <= j -> dot_file_at hp j = false.
Proof.
  intros H Hj. destruct (Z_lt_ge_dec j (len hp)) as [Hlt|Hge].
  - apply (dot_file_from_false hp (List.length hp) 0 H). unfold len in Hlt. lia.
  - unfold dot_file_at. rewrite (char_at_beyond hp j) by lia. reflexivity.
Qed.

(** ** One iteration of the loop of [recursive_match] *)

Lemma for_loop_step n i s (f : Z -> float -> memoM flow) st :
  for_loop (S n) i s f st =
  match f i s st with
  | Done (Continue s', st') => for_loop n (i + 1) s' f st'
  | Done (Break s', st') => Done (s', st')
  | Done (Return v, st') => Done (v, st')
  | OutOfBounds k => OutOfBounds k
  end.
Proof.
  cbn [for_loop]. unfold bind.
  destruct (f i s st) as [[[s'|s'|v] st']|k]; reflexivity.
Qed.

(** ** What [calculate_match] hands to [recursive_match] *)

Lemma prepare_all_scorings shl haystack needle cs al nv all nb hb :
  prepare shl haystack needle cs al nv all nb hb =
  match prepare shl haystack needle cs al nv false nb hb with
  | Early score bitmask => Early score bitmask
  | Search m size bitmask => Search (with_all_scorings m all) size bitmask
  end.
Proof.
  unfold prepare.
  repeat match goal with
         | |- context [if ?b then _ else _] => destruct b
         end; reflexivity.
Qed.

Lemma prepare_search shl haystack needle cs al nv all nb hb m size bitmask :
  prepare shl haystack needle cs al nv all nb hb = Search m size bitmask ->
  haystack_p m = codes haystack /\ needle_p m = codes needle /\
  needle_len m = len (codes needle) /\
  always_show_dot_files m = al /\ never_show_dot_files m = nv /\
  case_sensitive m = cs /\ compute_all_scorings m = all /\
  size = (last_rightmost m + 1) * needle_len m -
         (needle_len m * needle_len m - needle_len m).
Proof.
  unfold prepare.
  repeat match goal with
         | |- context [if ?b then _ else _] => destruct b
         end; try discriminate.
  all: intros H; injection H as <- <- _; repeat split.
Qed.

Lemma recursive_match_rest_S rest m h :
  recursive_match_rest (S rest) m h =
  let needle_idx := needle_len m - Z.of_nat (S rest) in
  if (needle_idx >? h) ||
     (h + (needle_len m - needle_idx) >? last_rightmost m + 1)
  then ret NON_MATCH
  else
    let idx := needle_idx * needle_len m + h in
    memoized <- memo_read (needle_idx, h) idx ;;
    if fne memoized UNSET then ret memoized
    else
      let c := char_at (needle_p m) needle_idx in
      let bound := nth (Z.to_nat needle_idx) (rightmost_match_p m) 0 in
      v <- for_loop (Z.to_nat (bound + 1 - h)) h NON_MATCH
             (loop_body m (recursive_match_rest rest m) h c) ;;
      _ <- memo_write idx v ;;
      ret v.
Proof. reflexivity. Qed.

Lemma nth_repeat_UNSET k n : nth k (repeat UNSET n) UNSET = UNSET.
Proof.
  revert k. induction n as [|n IH]; intros [|k]; cbn; auto.
Qed.

Lemma with_all_scorings_same m :
  with_all_scorings m (compute_all_scorings m) = m.
Proof. destruct m; reflexivity. Qed.

(** ** Exhaustive and fast scoring (lines 109-114) *)

(** C9 fails as stated: on ["a/.a"] the fast path stops at the first [a] with
    0.625, while the exhaustive scan goes on to the dot-file at index 2, where
    line 66 discards what was found. *)
Lemma exhaustive_below_fast_at_dot_file :
  score_match shl_x86 "a/.a" "a" false false false true 0 0 = Done 0%float /\
  score_match shl_x86 "a/.a" "a" false false false false 0 0 =
    Done 0.625%float /\
  PrimFloat.ltb 0 0.625 = true.
Proof. repeat split; vm_compute; reflexivity. Qed.

(** With two characters in the needle the exhaustive scan can, besides,
    address the memo table outside its bounds where the fast path stays
    inside: needle ["ab"] against ["aab"] has a table of 4 cells, and only the
    exhaustive scan reaches [(needle_idx, haystack_idx) = (1, 2)], cell 4. *)
Lemma exhaustive_leaves_table_where_fast_stays :
  (exists f,
     score_match shl_x86 "aab" "ab" false true false false 0 0 = Done f) /\
  score_match shl_x86 "aab" "ab" false true false true 0 0 = OutOfBounds 4.
Proof. split; [eexists|]; vm_compute; reflexivity. Qed.

(** ** Case folding (lines 69-73 and 171-182) *)

Lemma fold_haystack_char_lower m c i d :
  case_sensitive m = false ->
  fold_haystack_char m c i = Some d ->
  d = lower_of (char_at (haystack_p m) i).
Proof.
  unfold fold_haystack_char, lower_of. intros Hcs. rewrite Hcs.
  destruct (char_at (haystack_p m) i =? ch ".") eqn:Ed.
  - apply Z.eqb_eq in Ed. rewrite Ed.
    destruct ((i =? 0) || (char_at (haystack_p m) (i - 1) =? ch "/"));
      [destruct (never_show_dot_files m ||
                 negb (c =? ch ".") && negb (always_show_dot_files m));
       [discriminate|]|];
      intros H; injection H as <-; reflexivity.
  - rewrite andb_true_r.
    destruct ((ch "A" <=? char_at (haystack_p m) i) &&
              (char_at (haystack_p m) i <=? ch "Z"));
      intros H; injection H as <-; reflexivity.
Qed.

(** C4, as the code has it: in a case-insensitive match only the haystack
    character is folded to lower case; the needle character is compared as it
    is, in [recursive_match] and in the backward scan alike.  So the needle
    ["a"] matches the haystack ["A"] and the needle ["A"] does not match the
    haystack ["a"]. *)
Theorem case_insensitive_folds_haystack_only m c i :
  case_sensitive m = false ->
  (forall d, fold_haystack_char m c i = Some d ->
             (c =? d) = (c =? lower_of (char_at (haystack_p m) i))) /\
  (forall shl compute_bitmasks st,
     0 <= cursor st ->
     cursor (scan_step shl (haystack_p m) (needle_p m) (case_sensitive m)
               compute_bitmasks i st) =
     if lower_of (char_at (haystack_p m) i) =?
        char_at (needle_p m) (cursor st)
     then cursor st - 1 else cursor st) /\
  score_match shl_x86 "A" "a" false false false false 0 0 = Done 1%float /\
  score_match shl_x86 "a" "A" false false false false 0 0 = Done 0%float.
Proof.
  intros Hcs. split; [|split; [|split; vm_compute; reflexivity]].
  - intros d Hd. rewrite (fold_haystack_char_lower m c i d Hcs Hd).
    reflexivity.
  - intros shl cb st Hc. unfold scan_step. rewrite Hcs. cbn [negb].
    replace (cursor st >=? 0) with true by (symmetry; apply Z.geb_le; lia).
    cbn [andb].
    destruct (lower_of (char_at (haystack_p m) i) =?
              char_at (needle_p m) (cursor st)); reflexivity.
Qed.

Lemma case_insensitive_folds_witness :
  case_sensitive A_in_a = false /\
  (forall d, fold_haystack_char A_in_a (ch "a") 0 = Some d ->
             (ch "a" =? d) =
             (ch "a" =? lower_of (char_at (haystack_p A_in_a) 0))) /\
  (forall shl compute_bitmasks st,
     0 <= cursor st ->
     cursor (scan_step shl (haystack_p A_in_a) (needle_p A_in_a)
               (case_sensitive A_in_a) compute_bitmasks 0 st) =
     if lower_of (char_at (haystack_p A_in_a) 0) =?
        char_at (needle_p A_in_a) (cursor st)
     then cursor st - 1 else cursor st) /\
  score_match shl_x86 "A" "a" false false false false 0 0 = Done 1%float /\
  score_match shl_x86 "a" "A" false false false false 0 0 = Done 0%float.
Proof.
  split; [reflexivity|].
  exact (case_insensitive_folds_haystack_only A_in_a (ch "a") 0 eq_refl).
Defined.

(** C4 fails as stated: ["A"] and ["a"] are equal once both are folded, yet
    the needle ["A"] scores 0 against the haystack ["a"]. *)
Lemma uppercase_needle_does_not_match :
  lower_of (ch "A") = lower_of (ch "a") /\
  score_match shl_x86 "a" "A" false false false false 0 0 = Done 0%float.
Proof. split; vm_compute; reflexivity. Qed.

(** ** The backward scan and subsequences (lines 166-193) *)

Lemma is_subsequence_nil hp : is_subsequence [] hp = true.
Proof. destruct hp; reflexivity. Qed.

Lemma is_subsequence_skip_last y : forall hp np,
  is_subsequence np hp = true -> is_subsequence np (hp ++ [y]) = true.
Proof.
  induction hp as [|d hp IH]; intros [|c np] H; cbn in *;
    try reflexivity; try discriminate.
  destruct (c =? d); auto.
Qed.

Lemma is_subsequence_take_last x : forall hp np,
  is_subsequence np hp = true ->
  is_subsequence (np ++ [x]) (hp ++ [x]) = true.
Proof.
  induction hp as [|d hp IH]; intros [|c np] H.
  - cbn. rewrite Z.eqb_refl. reflexivity.
  - discriminate.
  - cbn [app is_subsequence].
    destruct (x =? d); [apply is_subsequence_nil|].
    apply (IH []). apply is_subsequence_nil.
  - cbn [app is_subsequence] in H |- *.
    destruct (c =? d); [apply IH; exact H|].
    apply (IH (c :: np)). exact H.
Qed.

Lemma firstn_snoc (l : list Z) : forall i,
  (i < List.length l)%nat -> firstn (S i) l = firstn i l ++ [nth i l 0].
Proof.
  induction l as [|x l IH]; intros i Hi; cbn in Hi; [lia|].
  destruct i as [|i]; [reflexivity|].
  cbn [firstn nth app]. f_equal. apply IH. lia.
Qed.

Section Scan.

Variable shl : Z -> Z.
Variables hp np : chars.
Variables cs cb : bool.

Let key := haystack_key cs.

Lemma scan_step_cursor i st :
  cursor (scan_step shl hp np cs cb i st) =
  if (cursor st >=? 0) && (key (char_at hp i) =? char_at np (cursor st))
  then cursor st - 1 else cursor st.
Proof.
  unfold scan_step, key, haystack_key.
  destruct cs; cbn [negb];
    match goal with |- context [if ?b then _ else _] => destruct b end;
    reflexivity.
Qed.

Lemma scan_reaches_start cnt : forall st,
  (cnt <= List.length hp)%nat ->
  -1 <= cursor st < len np ->
  cursor (scan shl hp np cs cb cnt st) = -1 ->
  is_subsequence (firstn (Z.to_nat (cursor st + 1)) np)
                 (map key (firstn cnt hp)) = true.
Proof.
  induction cnt as [|cnt IH]; intros st Hcnt Hcur Hend.
  - cbn in Hend. rewrite Hend. reflexivity.
  - cbn [scan] in Hend.
    rewrite (firstn_snoc hp cnt) by lia. rewrite map_app. cbn [map].
    pose proof (scan_step_cursor (Z.of_nat cnt) st) as Hstep.
    set (st' := scan_step shl hp np cs cb (Z.of_nat cnt) st) in *.
    assert (Hnth : nth cnt hp 0 = char_at hp (Z.of_nat cnt)).
    { unfold char_at. rewrite Nat2Z.id. reflexivity. }
    rewrite Hnth.
    destruct ((cursor st >=? 0) &&
              (key (char_at hp (Z.of_nat cnt)) =? char_at np (cursor st)))
      eqn:E.
    + apply andb_true_iff in E. destruct E as [Hge Heq].
      apply Z.geb_le in Hge. apply Z.eqb_eq in Heq.
      assert (IH' := IH st' ltac:(lia) ltac:(lia) Hend).
      rewrite Hstep in IH'.
      replace (cursor st - 1 + 1) with (cursor st) in IH' by lia.
      replace (Z.to_nat (cursor st + 1)) with (S (Z.to_nat (cursor st)))
        by lia.
      rewrite (firstn_snoc np) by (unfold len in Hcur; lia).
      fold (char_at np (cursor st)). rewrite Heq.
      apply is_subsequence_take_last. exact IH'.
    + assert (IH' := IH st' ltac:(lia) ltac:(lia) Hend).
      rewrite Hstep in IH'.
      apply is_subsequence_skip_last. exact IH'.
Qed.

End Scan.

Lemma len_codes_pos a s : 0 < len (codes (String a s)).
Proof. unfold len, codes. cbn [list_ascii_of_string map List.length]. lia. Qed.

(** For a haystack that is not empty, a needle that is not a subsequence of
    the (folded) haystack scores 0, and [recursive_match] is not called: the
    bitmask test of line 158 or the scan of lines 170-193 returns. *)
Theorem not_subsequence_scores_zero shl haystack needle cs al nv all nb hb :
  haystack <> "" ->
  is_subsequence (codes needle)
                 (map (haystack_key cs) (codes haystack)) = false ->
  (exists bitmask,
     prepare shl haystack needle cs al nv all nb hb = Early 0%float bitmask) /\
  score_match shl haystack needle cs al nv all nb hb = Done 0%float.
Proof.
  intros Hh Hsub.
  assert (P : exists bitmask,
            prepare shl haystack needle cs al nv all nb hb =
            Early 0%float bitmask).
  { destruct needle as [|a needle];
      [rewrite is_subsequence_nil in Hsub; discriminate|].
    destruct haystack as [|b haystack]; [contradiction|].
    pose proof (len_codes_pos a needle) as Hn.
    pose proof (len_codes_pos b haystack) as Hl.
    unfold prepare.
    replace (len (codes (String a needle)) =? 0) with false
      by (symmetry; apply Z.eqb_neq; lia).
    replace (len (codes (String b haystack)) >? 0) with true
      by (symmetry; apply Z.gtb_lt; lia).
    cbv zeta.
    destruct (negb (hb =? 0) && negb (Z.land nb hb =? nb));
      [eexists; reflexivity|].
    match goal with
    | |- context [cursor ?st =? -1] => destruct (cursor st =? -1) eqn:E
    end; [|eexists; reflexivity].
    exfalso. apply Z.eqb_eq in E.
    apply scan_reaches_start in E;
      [|unfold len; lia|cbn [cursor]; lia].
    cbn [cursor] in E.
    replace (Z.to_nat (len (codes (String a needle)) - 1 + 1))
      with (List.length (codes (String a needle))) in E
      by (unfold len; lia).
    replace (Z.to_nat (len (codes (String b haystack))))
      with (List.length (codes (String b haystack))) in E
      by (unfold len; lia).
    rewrite !firstn_all in E. rewrite E in Hsub. discriminate. }
  split; [exact P|].
  destruct P as [bitmask P]. unfold score_match, calculate_match.
  rewrite P. reflexivity.
Qed.

Lemma not_subsequence_witness :
  "xyz" <> "" /\
  is_subsequence (codes "A") (map (haystack_key false) (codes "xyz")) = false /\
  score_match shl_x86 "xyz" "A" false false false false 0 0 = Done 0%float.
Proof.
  split; [discriminate|]. split; [reflexivity|].
  apply (not_subsequence_scores_zero shl_x86 "xyz" "A");
    [discriminate|reflexivity].
Defined.

(** C5: ["a"] is not a subsequence of the empty haystack, and the score is 1:
    line 156 skips the scan, and the initial [score = 1.0] is returned. *)
Theorem not_subsequence_of_empty_haystack_scores_one shl cs al nv all nb hb :
  is_subsequence (codes "a") (map (haystack_key cs) (codes "")) = false /\
  score_match shl "" "a" cs al nv all nb hb = Done 1%float.
Proof. split; reflexivity. Qed.

(** ** Empty needle (lines 145-155) *)

Lemma prepare_empty_needle shl haystack cs always never all nb hb :
  prepare shl haystack "" cs always never all nb hb =
  Early (if negb always && has_dot_file (codes haystack)
         then 0%float else 1%float) hb.
Proof.
  unfold prepare. cbn [codes list_ascii_of_string map len List.length].
  cbn [Z.of_nat Z.eqb].
  destruct (negb always && has_dot_file (codes haystack)); reflexivity.
Qed.

(** C2, as the code has it: with an empty needle the score is 0 when
    [always_show_dot_files] is off and some [.] of the haystack starts a path
    segment, and 1 for every other haystack. *)
Theorem empty_needle_score shl haystack cs always never all nb hb :
  score_match shl haystack "" cs always never all nb hb =
  Done (if negb always && has_dot_file (codes haystack)
        then 0%float else 1%float).
Proof.
  unfold score_match, calculate_match.
  rewrite prepare_empty_needle. reflexivity.
Qed.

(** C2 fails as stated: the empty needle against ["git"] scores 1, not 0. *)
Lemma empty_needle_git_scores_one :
  score_match shl_x86 "git" "" false false false false 0 0 = Done 1%float /\
  score_match shl_x86 "git" "" false false false false 0 0 <> Done 0%float.
Proof.
  split; [vm_compute; reflexivity|].
  vm_compute. apply (Done_float_neq _ _ (fun x => PrimFloat.eqb x 0)).
  vm_compute. discriminate.
Qed.

(** ** Empty haystack (line 156) *)

(** C3: a non-empty needle against the empty haystack takes neither branch of
    lines 146-210 and comes back with the initial [score = 1.0]. *)
Theorem empty_haystack_scores_one shl a needle cs always never all nb hb :
  score_match shl "" (String a needle) cs always never all nb hb =
  Done 1%float.
Proof.
  unfold score_match, calculate_match, prepare.
  cbn [codes list_ascii_of_string map len List.length].
  replace (Z.of_nat (S (List.length (map code (list_ascii_of_string needle))))
           =? 0) with false by (symmetry; apply Z.eqb_neq; lia).
  reflexivity.
Qed.

(** ** The sentinel in the returned score (lines 106-110 and 211) *)

(** C1: with needle ["ab"] and haystack ["a/.b"] the call for [b] stops at the
    dot-file of line 66 and returns [NON_MATCH]; line 107 adds the score of
    [a] to it, and line 211, which compares with [NON_MATCH] itself, lets the
    sum through: the caller receives a score below 0. *)
Theorem sentinel_plus_char_score_is_returned shl all nb :
  score_match shl "a/.b" "ab" false false false all nb 0 =
  Done (-999999999.625)%float /\
  PrimFloat.ltb (-999999999.625)%float 0 = true /\
  (-999999999.625)%float = (0.375 + NON_MATCH)%float.
Proof.
  split; [|split; vm_compute; reflexivity].
  destruct all; vm_compute; reflexivity.
Qed.

(** ** Dot-files with [never_show_dot_files] (lines 59-67) *)

(** C10: whatever the other options and bitmasks, needle ["."] against
    [".git/config"] scores 0 when [never_show_dot_files] is set. *)
Theorem never_show_dot_git_config shl cs always all nb hb :
  score_match shl ".git/config" "." cs always true all nb hb = Done 0%float.
Proof.
  unfold score_match, calculate_match, prepare.
  cbn [codes list_ascii_of_string map len List.length].
  change (Z.of_nat 1 =? 0) with false.
  change (Z.of_nat 11 >? 0) with true.
  cbv iota.
  destruct (negb (hb =? 0) && negb (Z.land nb hb =? nb)); [reflexivity|].
  destruct (hb =? 0), cs, always, all; vm_compute; reflexivity.
Qed.

(** ** The memo table (lines 48 and 199-207) *)

(** C7: for needle ["ab"] and haystack ["ab"] the table has 2 cells, and the
    second call, at [needle_idx = 1] and [haystack_idx = 1], addresses cell
    [1 * 2 + 1 = 3]. *)
Theorem memo_access_outside_table shl cs always never all nb :
  (exists m bitmask,
     prepare shl "ab" "ab" cs always never all nb 0 = Search m 2 bitmask) /\
  calculate_match shl "ab" "ab" cs always never all nb 0 = OutOfBounds 3.
Proof.
  split.
  - destruct cs, always, never, all; vm_compute; eexists; eexists; reflexivity.
  - destruct cs, always, never, all; vm_compute; reflexivity.
Qed.

(** C6: scoring needle ["abc"] against ["abcxabc"] with every scoring
    computed addresses the table at the cells (needle_idx, haystack_idx) below,
    in this order.  [(2, 2)] and [(1, 5)] are both cell [8] of the table: the
    call at [(1, 5)] finds there the score stored for [(2, 2)] and returns it
    without looking at the haystack. *)
Theorem memo_cells_collide shl nb :
  memo_cells_visited shl "abcxabc" "abc" false true false true nb 0 =
    [(0, 0); (1, 1); (2, 2); (2, 6); (1, 5)] /\
  2 * len (codes "abc") + 2 = 1 * len (codes "abc") + 5.
Proof. split; vm_compute; reflexivity. Qed.

(** ** The haystack bitmask (lines 169-190) *)

(** C8: the haystack ["{"] (code 123, just above [z]) sets bit 26, outside the
    26 letter positions. *)
Theorem bitmask_bit_outside_letters shl cs always never all nb :
  calculate_match shl "{" "{" cs always never all nb 0 =
    Done (1%float, Z.shiftl 1 26) /\
  Z.testbit (Z.shiftl 1 26) 26 = true.
Proof.
  split; [|reflexivity].
  destruct cs, always, never, all; vm_compute; reflexivity.
Qed.

(** * Further properties of the scan, the bitmask and the table *)

(** ** The rightmost-match table (lines 166-187) *)

Lemma update_length l : forall n v, List.length (update l n v) = List.length l.
Proof.
  induction l as [|x l IH]; intros [|n] v; cbn; auto.
Qed.

Lemma nth_update_same l : forall n v,
  (n < List.length l)%nat -> nth n (update l n v) 0 = v.
Proof.
  induction l as [|x l IH]; intros [|n] v H; cbn in *; try lia; auto.
  apply IH. lia.
Qed.

Lemma nth_update_other l : forall n k v,
  k <> n -> nth k (update l n v) 0 = nth k l 0.
Proof.
  induction l as [|x l IH]; intros [|n] [|k] v H; cbn; auto; try congruence.
Qed.

Section Rightmost.

Variable shl : Z -> Z.
Variables hp np : chars.
Variables cs cb : bool.

Let key := haystack_key cs.
Lemma scan_step_rightmost i st :
  rightmost (scan_step shl hp np cs cb i st) =
  if (cursor st >=? 0) && (key (char_at hp i) =? char_at np (cursor st))
  then update (rightmost st) (Z.to_nat (cursor st)) i else rightmost st.
Proof.
  unfold scan_step, key, haystack_key.
  destruct cs; cbn [negb];
    match goal with |- context [if ?b then _ else _] => destruct b end;
    reflexivity.
Qed.

Lemma scanned_step i st :
  0 <= i < len hp ->
  scanned hp np cs (i + 1) st ->
  scanned hp np cs i (scan_step shl hp np cs cb i st).
Proof.
  intros Hi (Hc & Hl & Hk & Hg). unfold scanned, next_match, rightmost_at in *. fold key.
  rewrite scan_step_cursor, scan_step_rightmost. fold key.
  destruct ((cursor st >=? 0) && (key (char_at hp i) =? char_at np (cursor st)))
    eqn:E.
  - apply andb_true_iff in E. destruct E as [Hge Heq].
    apply Z.geb_le in Hge. apply Z.eqb_eq in Heq.
    split; [lia|]. split; [rewrite update_length; exact Hl|].
    assert (Hlt : (Z.to_nat (cursor st) < List.length (rightmost st))%nat)
      by (unfold len in Hc; lia).
    split.
    + intros k Hkr.
      destruct (Z.eq_dec k (cursor st)) as [->|Hne].
      * rewrite nth_update_same by exact Hlt.
        split; [lia|]. split; [exact Heq|]. split.
        -- intros Hn. rewrite nth_update_other by lia.
           destruct (Hk (cursor st + 1) ltac:(lia)) as (Hr & _). lia.
        -- intros j Hj. apply (Hg Hge).
           destruct (cursor st + 1 <? len np);
             [rewrite nth_update_other in Hj by lia|]; lia.
      * rewrite nth_update_other by lia.
        destruct (Hk k ltac:(lia)) as (Hr & Hm & Hs & Hgap).
        split; [lia|]. split; [exact Hm|]. split.
        -- intros Hn. rewrite nth_update_other by lia. auto.
        -- intros j Hj. apply Hgap.
           destruct (k + 1 <? len np);
             [rewrite nth_update_other in Hj by lia|]; lia.
    + intros Hc' j Hj.
      replace (cursor st - 1 + 1) with (cursor st) in Hj by lia.
      replace (cursor st <? len np) with true in Hj
        by (symmetry; apply Z.ltb_lt; lia).
      rewrite nth_update_same in Hj by exact Hlt. lia.
  - split; [lia|]. split; [exact Hl|]. split.
    + intros k Hkr. destruct (Hk k Hkr) as (Hr & Hm & Hs & Hgap).
      split; [lia|]. auto.
    + intros Hc' j Hj.
      destruct (Z.eq_dec j i) as [->|Hne]; [|apply (Hg Hc'); lia].
      apply andb_false_iff in E. destruct E as [E|E].
      * lia.
      * apply Z.eqb_neq in E. exact E.
Qed.

Lemma scanned_scan cnt : forall st,
  Z.of_nat cnt <= len hp ->
  scanned hp np cs (Z.of_nat cnt) st ->
  scanned hp np cs 0 (scan shl hp np cs cb cnt st).
Proof.
  induction cnt as [|cnt IH]; intros st Hc H; [exact H|].
  cbn [scan]. apply IH; [lia|].
  apply scanned_step; [lia|].
  replace (Z.of_nat cnt + 1) with (Z.of_nat (S cnt)) by lia. exact H.
Qed.

End Rightmost.

Lemma prepare_search_scan shl haystack needle cs al nv all nb hb m size b :
  prepare shl haystack needle cs al nv all nb hb = Search m size b ->
  let hp := codes haystack in
  let np := codes needle in
  let st := scan shl hp np cs (hb =? 0) (Z.to_nat (len hp)) (scan_start np) in
  0 < len np /\ 0 < len hp /\ cursor st = -1 /\
  rightmost_match_p m = rightmost st /\
  haystack_len m = len hp /\
  b = (if hb =? 0 then mask st else hb) /\
  (hb = 0 \/ Z.land nb hb = nb).
Proof.
  unfold prepare, scan_start. cbv zeta.
  destruct (len (codes needle) =? 0) eqn:En;
    [destruct (negb al && has_dot_file (codes haystack)); discriminate|].
  destruct (len (codes haystack) >? 0) eqn:Eh; [|discriminate].
  destruct (negb (hb =? 0) && negb (Z.land nb hb =? nb)) eqn:Ef;
    [discriminate|].
  match goal with
  | |- context [negb (cursor ?st =? -1)] =>
      destruct (cursor st =? -1) eqn:Ec
  end; [|discriminate].
  cbn [negb]. intros H. injection H as <- _ <-.
  cbn [rightmost_match_p haystack_len].
  apply Z.eqb_neq in En. apply Z.gtb_lt in Eh. apply Z.eqb_eq in Ec.
  pose proof (Zle_0_nat (List.length (codes needle))) as Hn.
  fold (len (codes needle)) in Hn.
  repeat split; try assumption; lia.
Qed.

Lemma scanned_start hp np cs :
  scanned hp np cs (len hp) (scan_start np).
Proof.
  unfold scanned, next_match, rightmost_at, scan_start.
  cbn [cursor rightmost].
  split; [unfold len; lia|]. split; [rewrite repeat_length; unfold len; lia|].
  split; [intros k Hk; lia|].
  intros Hc j Hj.
  replace (len np - 1 + 1 <? len np) with false in Hj
    by (symmetry; apply Z.ltb_ge; lia).
  lia.
Qed.

(** When [recursive_match] is called, the table holds for every needle index
    [k] a haystack position between [k] and the end that carries the needle
    character [k] (after folding), and the positions increase strictly with
    [k]. *)
Theorem rightmost_table_is_increasing_match
    shl haystack needle cs al nv all nb hb m size b :
  prepare shl haystack needle cs al nv all nb hb = Search m size b ->
  forall k, 0 <= k < needle_len m ->
    let r := nth (Z.to_nat k) (rightmost_match_p m) 0 in
    k <= r < haystack_len m /\
    haystack_key cs (char_at (haystack_p m) r) = char_at (needle_p m) k /\
    (k + 1 < needle_len m ->
     r < nth (Z.to_nat (k + 1)) (rightmost_match_p m) 0).
Proof.
  intros P.
  destruct (prepare_search _ _ _ _ _ _ _ _ _ _ _ _ P)
    as (Hhp & Hnp & Hlen & _).
  destruct (prepare_search_scan _ _ _ _ _ _ _ _ _ _ _ _ P)
    as (Hn & Hh & Hc & Hrm & Hhl & _).
  pose proof (scanned_scan shl (codes haystack) (codes needle) cs (hb =? 0)
                (Z.to_nat (len (codes haystack))) (scan_start (codes needle))
                ltac:(lia)) as S.
  rewrite Z2Nat.id in S by lia.
  specialize (S (scanned_start _ _ _)).
  destruct S as (_ & _ & Sk & _). rewrite Hc in Sk.
  unfold next_match, rightmost_at in Sk.
  rewrite Hrm, Hhl, Hhp, Hnp, Hlen.
  set (rm := fun k => nth (Z.to_nat k)
                (rightmost (scan shl (codes haystack) (codes needle) cs
                   (hb =? 0) (Z.to_nat (len (codes haystack)))
                   (scan_start (codes needle)))) 0) in *.
  assert (Hlow : forall j, Z.of_nat j < len (codes needle) ->
                           Z.of_nat j <= rm (Z.of_nat j)).
  { induction j as [|j IH]; intros Hj.
    - destruct (Sk 0 ltac:(lia)) as (Hr & _). fold (rm 0) in Hr.
      change (Z.of_nat 0) with 0. lia.
    - destruct (Sk (Z.of_nat j) ltac:(lia)) as (_ & _ & Hs & _).
      fold (rm (Z.of_nat j)) (rm (Z.of_nat j + 1)) in Hs.
      specialize (IH ltac:(lia)). specialize (Hs ltac:(lia)).
      replace (Z.of_nat (S j)) with (Z.of_nat j + 1) by lia. lia. }
  intros k Hk. cbv zeta.
  destruct (Sk k ltac:(lia)) as (Hr & Hm & Hs & _).
  fold (rm k) (rm (k + 1)) in *.
  split; [|split; assumption]. split; [|lia].
  specialize (Hlow (Z.to_nat k)). rewrite Z2Nat.id in Hlow by lia.
  apply Hlow. lia.
Qed.

Lemma rightmost_table_witness :
  exists m size b,
    prepare shl_x86 "abcxabc" "abc" false true false true 0 0 =
      Search m size b /\
    0 <= 1 < needle_len m /\
    let r := nth (Z.to_nat 1) (rightmost_match_p m) 0 in
    1 <= r < haystack_len m /\
    haystack_key false (char_at (haystack_p m) r) = char_at (needle_p m) 1 /\
    (1 + 1 < needle_len m ->
     r < nth (Z.to_nat (1 + 1)) (rightmost_match_p m) 0).
Proof.
  eexists. eexists. eexists.
  split; [vm_compute; reflexivity|].
  split; [vm_compute; split; first [discriminate|reflexivity]|].
  apply (rightmost_table_is_increasing_match shl_x86 "abcxabc" "abc"
           false true false true 0 0 _ _ _ eq_refl 1).
  vm_compute. split; first [discriminate|reflexivity].
Defined.

Lemma embeds_from_spec key hp : forall np ps lo,
  embeds_from key hp np ps lo = true ->
  forall k, (k < List.length np)%nat ->
    lo <= nth k ps 0 < len hp /\
    key (char_at hp (nth k ps 0)) = nth k np 0 /\
    ((S k < List.length np)%nat -> nth k ps 0 < nth (S k) ps 0).
Proof.
  induction np as [|c np IH]; intros [|p ps] lo H k Hk; cbn in Hk; try lia;
    cbn [embeds_from] in H; try discriminate.
  apply andb_true_iff in H. destruct H as [H He].
  apply andb_true_iff in H. destruct H as [H Hc].
  apply andb_true_iff in H. destruct H as [Hlo Hhi].
  apply Z.leb_le in Hlo. apply Z.ltb_lt in Hhi. apply Z.eqb_eq in Hc.
  destruct k as [|k].
  - cbn [nth]. split; [lia|]. split; [exact Hc|].
    intros Hn. cbn in Hn.
    destruct (IH ps (p + 1) He 0%nat ltac:(lia)) as (Hr & _). lia.
  - cbn [nth]. destruct (IH ps (p + 1) He k ltac:(lia)) as (Hr & Hm & Hs).
    split; [lia|]. split; [exact Hm|]. intros Hn. apply Hs.
    cbn in Hn. lia.
Qed.

(** The table is the rightmost placement of the needle: in any placement of
    the needle in the haystack, character [k] sits at or before
    [rightmost_match_p[k]]. *)
Theorem rightmost_table_bounds_every_match
    shl haystack needle cs al nv all nb hb m size b ps :
  prepare shl haystack needle cs al nv all nb hb = Search m size b ->
  embeds_from (haystack_key cs) (codes haystack) (codes needle) ps 0 = true ->
  forall k, 0 <= k < needle_len m ->
    nth (Z.to_nat k) ps 0 <= nth (Z.to_nat k) (rightmost_match_p m) 0.
Proof.
  intros P E.
  destruct (prepare_search _ _ _ _ _ _ _ _ _ _ _ _ P)
    as (Hhp & Hnp & Hlen & _).
  destruct (prepare_search_scan _ _ _ _ _ _ _ _ _ _ _ _ P)
    as (Hn & Hh & Hc & Hrm & Hhl & _).
  pose proof (scanned_scan shl (codes haystack) (codes needle) cs (hb =? 0)
                (Z.to_nat (len (codes haystack))) (scan_start (codes needle))
                ltac:(lia)) as S.
  rewrite Z2Nat.id in S by lia.
  specialize (S (scanned_start _ _ _)).
  destruct S as (_ & _ & Sk & _). rewrite Hc in Sk.
  unfold next_match, rightmost_at in Sk.
  rewrite Hrm, Hlen.
  pose proof (embeds_from_spec _ _ _ _ _ E) as Es.
  set (rm := fun k => nth (Z.to_nat k)
                (rightmost (scan shl (codes haystack) (codes needle) cs
                   (hb =? 0) (Z.to_nat (len (codes haystack)))
                   (scan_start (codes needle)))) 0) in *.
  set (n := len (codes needle)) in *.
  assert (Hdown : forall d, Z.of_nat d < n ->
            nth (Z.to_nat (n - 1 - Z.of_nat d)) ps 0 <=
            rm (n - 1 - Z.of_nat d)).
  { induction d as [|d IH]; intros Hd.
    - replace (n - 1 - Z.of_nat 0) with (n - 1) by lia.
      destruct (Sk (n - 1) ltac:(lia)) as (_ & _ & _ & Hgap).
      fold (rm (n - 1)) in Hgap.
      replace (n - 1 + 1 <? n) with false in Hgap
        by (symmetry; apply Z.ltb_ge; lia).
      destruct (Es (Z.to_nat (n - 1)) ltac:(unfold n, len in *; lia))
        as (Hr & Hm & _).
      fold (char_at (codes needle) (n - 1)) in Hm.
      destruct (Z_le_gt_dec (nth (Z.to_nat (n - 1)) ps 0) (rm (n - 1)))
        as [Hle|Hgt]; [exact Hle|].
      exfalso. apply (Hgap (nth (Z.to_nat (n - 1)) ps 0)); [lia|exact Hm].
    - specialize (IH ltac:(lia)).
      set (k := n - 1 - Z.of_nat (S d)) in *.
      replace (n - 1 - Z.of_nat d) with (k + 1) in IH by lia.
      destruct (Sk k ltac:(lia)) as (_ & _ & _ & Hgap).
      fold (rm k) (rm (k + 1)) in Hgap.
      replace (k + 1 <? n) with true in Hgap
        by (symmetry; apply Z.ltb_lt; lia).
      destruct (Es (Z.to_nat k) ltac:(unfold n, len in *; lia))
        as (Hr & Hm & Hs).
      fold (char_at (codes needle) k) in Hm.
      specialize (Hs ltac:(unfold n, len in *; lia)).
      replace (S (Z.to_nat k)) with (Z.to_nat (k + 1)) in Hs by lia.
      destruct (Z_le_gt_dec (nth (Z.to_nat k) ps 0) (rm k))
        as [Hle|Hgt]; [exact Hle|].
      exfalso. apply (Hgap (nth (Z.to_nat k) ps 0)); [lia|exact Hm]. }
  intros k Hk.
  specialize (Hdown (Z.to_nat (n - 1 - k)) ltac:(lia)).
  replace (n - 1 - Z.of_nat (Z.to_nat (n - 1 - k))) with k in Hdown by lia.
  exact Hdown.
Qed.

Lemma rightmost_bounds_witness :
  exists m size b,
    prepare shl_x86 "abcxabc" "abc" false true false true 0 0 =
      Search m size b /\
    embeds_from (haystack_key false) (codes "abcxabc") (codes "abc")
      [0; 1; 6] 0 = true /\
    0 <= 1 < needle_len m /\
    nth (Z.to_nat 1) [0; 1; 6] 0 <= nth (Z.to_nat 1) (rightmost_match_p m) 0.
Proof.
  eexists. eexists. eexists.
  split; [vm_compute; reflexivity|].
  split; [reflexivity|].
  split; [vm_compute; split; first [discriminate|reflexivity]|].
  apply (rightmost_table_bounds_every_match shl_x86 "abcxabc" "abc"
           false true false true 0 0 _ _ _ [0; 1; 6] eq_refl eq_refl 1).
  vm_compute. split; first [discriminate|reflexivity].
Defined.

Lemma is_subsequence_of_nil np : is_subsequence np [] = true -> np = [].
Proof. destruct np; [reflexivity|discriminate]. Qed.

Lemma is_subsequence_drop_last x : forall hp np,
  is_subsequence (np ++ [x]) (hp ++ [x]) = true ->
  is_subsequence np hp = true.
Proof.
  induction hp as [|d hp IH]; intros [|c np] H; try reflexivity.
  - exfalso. cbn [app is_subsequence] in H.
    destruct (c =? x); [|discriminate].
    destruct np; discriminate.
  - cbn [app is_subsequence] in H |- *.
    destruct (c =? d); [apply IH; exact H|].
    apply (IH (c :: np)). exact H.
Qed.

Lemma is_subsequence_unused_last x y : forall hp np,
  x <> y ->
  is_subsequence (np ++ [x]) (hp ++ [y]) = true ->
  is_subsequence (np ++ [x]) hp = true.
Proof.
  induction hp as [|d hp IH]; intros [|c np] Hxy H;
    cbn [app is_subsequence] in H |- *.
  - apply Z.eqb_neq in Hxy. rewrite Hxy in H. discriminate.
  - destruct (c =? y); [destruct np; discriminate|discriminate].
  - destruct (x =? d); [apply is_subsequence_nil|]. apply (IH [] Hxy H).
  - destruct (c =? d); [apply IH; assumption|].
    apply (IH (c :: np)); assumption.
Qed.

Section ScanComplete.

Variable shl : Z -> Z.
Variables hp np : chars.
Variables cs cb : bool.

Let key := haystack_key cs.

Lemma scan_finds_subsequence cnt : forall st,
  (cnt <= List.length hp)%nat ->
  -1 <= cursor st < len np ->
  is_subsequence (firstn (Z.to_nat (cursor st + 1)) np)
                 (map key (firstn cnt hp)) = true ->
  cursor (scan shl hp np cs cb cnt st) = -1.
Proof.
  induction cnt as [|cnt IH]; intros st Hcnt Hcur Hsub.
  - cbn in Hsub |- *. apply is_subsequence_of_nil in Hsub.
    apply (f_equal (@List.length Z)) in Hsub.
    rewrite firstn_length_le in Hsub by (unfold len in Hcur; lia).
    cbn in Hsub. lia.
  - cbn [scan].
    pose proof (scan_step_cursor shl hp np cs cb (Z.of_nat cnt) st) as Hstep.
    fold key in Hstep.
    rewrite (firstn_snoc hp cnt) in Hsub by lia.
    rewrite map_app in Hsub. cbn [map] in Hsub.
    replace (nth cnt hp 0) with (char_at hp (Z.of_nat cnt)) in Hsub
      by (unfold char_at; rewrite Nat2Z.id; reflexivity).
    apply IH; [lia|rewrite Hstep|rewrite Hstep].
    + destruct (cursor st >=? 0) eqn:Hge; cbn [andb]; [|lia].
      apply Z.geb_le in Hge.
      destruct (key (char_at hp (Z.of_nat cnt)) =? char_at np (cursor st));
        lia.
    + destruct (cursor st >=? 0) eqn:Hge; cbn [andb].
      * apply Z.geb_le in Hge.
        replace (Z.to_nat (cursor st + 1)) with (S (Z.to_nat (cursor st)))
          in Hsub by lia.
        rewrite (firstn_snoc np) in Hsub by (unfold len in Hcur; lia).
        fold (char_at np (cursor st)) in Hsub.
        destruct (key (char_at hp (Z.of_nat cnt)) =? char_at np (cursor st))
          eqn:E.
        -- apply Z.eqb_eq in E. rewrite E in Hsub.
           replace (cursor st - 1 + 1) with (cursor st) by lia.
           apply is_subsequence_drop_last in Hsub. exact Hsub.
        -- apply Z.eqb_neq in E.
           replace (Z.to_nat (cursor st + 1)) with (S (Z.to_nat (cursor st)))
             by lia.
           rewrite (firstn_snoc np) by (unfold len in Hcur; lia).
           fold (char_at np (cursor st)).
           apply is_subsequence_unused_last in Hsub; [exact Hsub|].
           intros Heq. apply E. symmetry. exact Heq.
      * replace (Z.to_nat (cursor st + 1)) with 0%nat by lia.
        apply is_subsequence_nil.
Qed.

End ScanComplete.

(** With both strings non-empty and a bitmask test that passes (or is
    skipped), [recursive_match] is called exactly when the needle is a
    subsequence of the folded haystack. *)
Theorem scorer_is_reached_iff_subsequence
    shl haystack needle cs al nv all nb hb :
  haystack <> "" -> needle <> "" ->
  hb = 0 \/ Z.land nb hb = nb ->
  (exists m size b,
     prepare shl haystack needle cs al nv all nb hb = Search m size b) <->
  is_subsequence (codes needle)
                 (map (haystack_key cs) (codes haystack)) = true.
Proof.
  intros Hh Hn Hf. split.
  - intros (m & size & b & P).
    destruct (is_subsequence (codes needle)
                (map (haystack_key cs) (codes haystack))) eqn:E;
      [reflexivity|].
    destruct (not_subsequence_scores_zero shl haystack needle cs al nv all
                nb hb Hh E) as [[b' P'] _].
    rewrite P' in P. discriminate.
  - intros Hsub.
    destruct needle as [|a needle]; [contradiction|].
    destruct haystack as [|c haystack]; [contradiction|].
    pose proof (len_codes_pos a needle) as Ln.
    pose proof (len_codes_pos c haystack) as Lh.
    unfold prepare.
    replace (len (codes (String a needle)) =? 0) with false
      by (symmetry; apply Z.eqb_neq; lia).
    replace (len (codes (String c haystack)) >? 0) with true
      by (symmetry; apply Z.gtb_lt; lia).
    replace (negb (hb =? 0) && negb (Z.land nb hb =? nb)) with false by lia.
    cbv zeta.
    match goal with
    | |- context [cursor ?st =? -1] =>
        replace (cursor st =? -1) with true;
        [cbn [negb]; do 3 eexists; reflexivity|]
    end.
    symmetry. apply Z.eqb_eq.
    apply scan_finds_subsequence; cbn [cursor]; [unfold len; lia|lia|].
    replace (Z.to_nat (len (codes (String a needle)) - 1 + 1))
      with (List.length (codes (String a needle))) by (unfold len; lia).
    replace (Z.to_nat (len (codes (String c haystack))))
      with (List.length (codes (String c haystack))) by (unfold len; lia).
    rewrite !firstn_all. exact Hsub.
Qed.

Lemma scorer_is_reached_witness :
  "src/main.c" <> "" /\ "smc" <> "" /\ (0 = 0 \/ Z.land 0 0 = 0) /\
  ((exists m size b,
      prepare shl_x86 "src/main.c" "smc" false false false false 0 0 =
      Search m size b) <->
   is_subsequence (codes "smc")
     (map (haystack_key false) (codes "src/main.c")) = true).
Proof.
  split; [discriminate|]. split; [discriminate|]. split; [left; reflexivity|].
  apply (scorer_is_reached_iff_subsequence shl_x86 "src/main.c" "smc");
    [discriminate|discriminate|left; reflexivity].
Defined.

Section Mask.

Variable shl : Z -> Z.
Variables hp np : chars.
Variable cs : bool.

Let bit_of (i : Z) : Z := shl_one shl (lower_of (char_at hp i) - ch "a").

Lemma scan_step_mask cb i st :
  mask (scan_step shl hp np cs cb i st) =
  if cb then Z.lor (mask st) (bit_of i) else mask st.
Proof.
  unfold scan_step, bit_of.
  match goal with |- context [if ?b then _ else _] => destruct b end;
    reflexivity.
Qed.

Lemma scan_mask_testbit cnt b : forall st,
  Z.testbit (mask (scan shl hp np cs true cnt st)) b = true <->
  Z.testbit (mask st) b = true \/
  exists i, 0 <= i < Z.of_nat cnt /\ Z.testbit (bit_of i) b = true.
Proof.
  induction cnt as [|cnt IH]; intros st.
  - cbn [scan]. split; [auto|]. intros [H|(i & Hi & _)]; [exact H|lia].
  - cbn [scan]. rewrite IH, scan_step_mask, Z.lor_spec, orb_true_iff.
    split.
    + intros [[H|H]|(i & Hi & H)]; auto.
      * right. exists (Z.of_nat cnt). split; [lia|exact H].
      * right. exists i. split; [lia|exact H].
    + intros [H|(i & Hi & H)]; auto.
      destruct (Z.eq_dec i (Z.of_nat cnt)) as [->|Hne]; auto.
      right. exists i. split; [lia|exact H].
Qed.

Lemma scan_mask_unchanged cnt : forall st,
  mask (scan shl hp np cs false cnt st) = mask st.
Proof.
  induction cnt as [|cnt IH]; intros st; [reflexivity|].
  cbn [scan]. rewrite IH, scan_step_mask. reflexivity.
Qed.

End Mask.

Lemma shl_one_defined shl k : 0 <= k < 31 -> shl_one shl k = Z.shiftl 1 k.
Proof.
  intros H. unfold shl_one.
  replace ((0 <=? k) && (k <? 31)) with true by lia. reflexivity.
Qed.

Lemma testbit_shiftl_one k b :
  0 <= k -> Z.testbit (Z.shiftl 1 k) b = true <-> b = k.
Proof.
  intros Hk. destruct (Z_lt_le_dec b 0) as [Hb|Hb].
  - rewrite Z.testbit_neg_r by lia. split; [discriminate|lia].
  - rewrite Z.shiftl_spec by lia.
    destruct (Z.eq_dec b k) as [->|Hne].
    + rewrite Z.sub_diag. cbn. tauto.
    + split; [|lia]. intros H. exfalso.
      destruct (Z_lt_le_dec (b - k) 0) as [Hn|Hp].
      * rewrite Z.testbit_neg_r in H by lia. discriminate.
      * replace (b - k) with (Z.succ (b - k - 1)) in H by lia.
        change 1 with (2 * 0 + 1) in H.
        rewrite Z.testbit_odd_succ in H by lia.
        rewrite Z.testbit_0_l in H. discriminate.
Qed.

Lemma prepare_bitmask shl a needle c haystack cs al nv all nb :
  bitmask_of (prepare shl (String c haystack) (String a needle) cs al nv all
                nb 0) =
  mask (scan shl (codes (String c haystack)) (codes (String a needle)) cs true
          (List.length (codes (String c haystack)))
          {| cursor := len (codes (String a needle)) - 1; mask := 0;
             rightmost := repeat 0 (Z.to_nat (len (codes (String a needle)))) |}).
Proof.
  pose proof (len_codes_pos a needle) as Ln.
  pose proof (len_codes_pos c haystack) as Lh.
  unfold prepare.
  replace (len (codes (String a needle)) =? 0) with false by lia.
  replace (len (codes (String c haystack)) >? 0) with true by lia.
  change (0 =? 0) with true. cbn [negb andb]. cbv zeta.
  replace (Z.to_nat (len (codes (String c haystack))))
    with (List.length (codes (String c haystack))) by (unfold len; lia).
  match goal with |- context [if ?b then _ else _] => destruct b end;
    reflexivity.
Qed.

Lemma lower_of_letter c :
  is_letter c = true -> ch "a" <= lower_of c <= ch "z".
Proof.
  unfold is_letter, lower_of.
  change (ch "a") with 97. change (ch "z") with 122.
  change (ch "A") with 65. change (ch "Z") with 90.
  destruct ((65 <=? c) && (c <=? 90)) eqn:E; lia.
Qed.

(** The computed bitmask has the bit of every letter of the haystack, lower
    or upper case, whatever the undefined shifts of the other bytes yield. *)
Theorem haystack_letters_set_their_bits
    shl haystack needle cs al nv all nb i :
  haystack <> "" -> needle <> "" ->
  0 <= i < len (codes haystack) ->
  ch "a" <= lower_of (char_at (codes haystack) i) <= ch "z" ->
  Z.testbit
    (bitmask_of (prepare shl haystack needle cs al nv all nb 0))
    (lower_of (char_at (codes haystack) i) - ch "a") = true.
Proof.
  intros Hh Hn Hi Hl.
  destruct needle as [|a needle]; [contradiction|].
  destruct haystack as [|c haystack]; [contradiction|].
  rewrite prepare_bitmask. apply scan_mask_testbit. right.
  exists i. split; [unfold len in Hi; lia|].
  change (ch "a") with 97 in *. change (ch "z") with 122 in *.
  rewrite shl_one_defined by lia.
  apply testbit_shiftl_one; lia.
Qed.

Lemma haystack_letters_witness :
  "a/B" <> "" /\ "b" <> "" /\ 0 <= 2 < len (codes "a/B") /\
  ch "a" <= lower_of (char_at (codes "a/B") 2) <= ch "z" /\
  Z.testbit
    (bitmask_of (prepare shl_x86 "a/B" "b" false false false false 0 0))
    (lower_of (char_at (codes "a/B") 2) - ch "a") = true.
Proof.
  assert (H1 : 0 <= 2 < len (codes "a/B")) by (vm_compute; split; first [discriminate|reflexivity]).
  assert (H2 : ch "a" <= lower_of (char_at (codes "a/B") 2) <= ch "z")
    by (vm_compute; split; first [discriminate|reflexivity]).
  split; [discriminate|]. split; [discriminate|].
  split; [exact H1|]. split; [exact H2|].
  apply (haystack_letters_set_their_bits shl_x86 "a/B" "b");
    [discriminate|discriminate|exact H1|exact H2].
Defined.

(** For a haystack made of ASCII letters only, the computed bitmask has bit
    [b] set exactly when the letter [b] (from [a]) occurs in it, in either
    case, and no bit from 26 on. *)
Theorem bitmask_of_letters_is_exact
    shl haystack needle cs al nv all nb b :
  haystack <> "" -> needle <> "" ->
  forallb is_letter (codes haystack) = true ->
  (Z.testbit (bitmask_of (prepare shl haystack needle cs al nv all nb 0)) b
   = true <->
   exists i, 0 <= i < len (codes haystack) /\
             lower_of (char_at (codes haystack) i) - ch "a" = b) /\
  (Z.testbit (bitmask_of (prepare shl haystack needle cs al nv all nb 0)) b
   = true -> 0 <= b < 26).
Proof.
  intros Hh Hn Hall.
  destruct needle as [|a needle]; [contradiction|].
  destruct haystack as [|c haystack]; [contradiction|].
  rewrite prepare_bitmask.
  set (hp := codes (String c haystack)) in *.
  assert (Hbit : forall i, 0 <= i < len hp ->
            0 <= lower_of (char_at hp i) - ch "a" < 26).
  { intros i Hi.
    assert (Hin : In (char_at hp i) hp)
      by (apply nth_In; unfold len in Hi; lia).
    pose proof (lower_of_letter _ (proj1 (forallb_forall _ _) Hall _ Hin)) as L.
    change (ch "a") with 97 in *. change (ch "z") with 122 in *. lia. }
  assert (Hiff :
    Z.testbit
      (mask (scan shl hp (codes (String a needle)) cs true (List.length hp)
         {| cursor := len (codes (String a needle)) - 1; mask := 0;
            rightmost :=
              repeat 0 (Z.to_nat (len (codes (String a needle)))) |})) b
    = true <->
    exists i, 0 <= i < len hp /\ lower_of (char_at hp i) - ch "a" = b).
  { rewrite scan_mask_testbit. cbn [mask]. rewrite Z.testbit_0_l.
    split.
    - intros [H|(i & Hi & H)]; [discriminate|].
      exists i. split; [exact Hi|].
      rewrite shl_one_defined in H by (specialize (Hbit i Hi); lia).
      apply testbit_shiftl_one in H; [|specialize (Hbit i Hi); lia].
      symmetry. exact H.
    - intros (i & Hi & H). right. exists i. split; [exact Hi|].
      rewrite shl_one_defined by (specialize (Hbit i Hi); lia).
      apply testbit_shiftl_one; [specialize (Hbit i Hi); lia|].
      symmetry. exact H. }
  split; [exact Hiff|].
  intros H. apply Hiff in H. destruct H as (i & Hi & <-). apply Hbit, Hi.
Qed.

Lemma bitmask_of_letters_witness :
  "Makefile" <> "" /\ "mk" <> "" /\
  forallb is_letter (codes "Makefile") = true /\
  ((Z.testbit
      (bitmask_of (prepare shl_x86 "Makefile" "mk" false false false false 0 0))
      10 = true <->
    exists i, 0 <= i < len (codes "Makefile") /\
              lower_of (char_at (codes "Makefile") i) - ch "a" = 10) /\
   (Z.testbit
      (bitmask_of (prepare shl_x86 "Makefile" "mk" false false false false 0 0))
      10 = true -> 0 <= 10 < 26)).
Proof.
  split; [discriminate|]. split; [discriminate|]. split; [reflexivity|].
  apply (bitmask_of_letters_is_exact shl_x86 "Makefile" "mk");
    [discriminate|discriminate|reflexivity].
Defined.

(** ** Dot-files of the haystack (lines 149-154) *)

Lemma dot_file_from_true hp n : forall i,
  dot_file_from hp n i = true ->
  exists j, i <= j < i + Z.of_nat n /\ dot_file_at hp j = true.
Proof.
  induction n as [|n IH]; intros i H; [discriminate|].
  cbn [dot_file_from] in H. fold (dot_file_at hp i) in H.
  destruct (dot_file_at hp i) eqn:E.
  - exists i. split; [lia|exact E].
  - destruct (IH (i + 1) H) as (j & Hj & Hd). exists j. split; [lia|exact Hd].
Qed.

(** The loop of lines 149-154 finds a dot-file exactly when some [.] of the
    haystack is its first character or follows a [/]. *)
Theorem has_dot_file_iff hp :
  has_dot_file hp = true <->
  exists i, 0 <= i < len hp /\ char_at hp i = ch "." /\
            (i = 0 \/ char_at hp (i - 1) = ch "/").
Proof.
  split.
  - intros H. destruct (dot_file_from_true _ _ _ H) as (j & Hj & Hd).
    exists j. split; [unfold len; lia|].
    unfold dot_file_at in Hd. apply andb_true_iff in Hd.
    destruct Hd as [Hc Hs]. apply Z.eqb_eq in Hc. split; [exact Hc|].
    apply orb_true_iff in Hs. destruct Hs as [Hs|Hs]; apply Z.eqb_eq in Hs;
      auto.
  - intros (i & Hi & Hc & Hs).
    destruct (has_dot_file hp) eqn:E; [reflexivity|].
    pose proof (has_dot_file_false hp i E ltac:(lia)) as Hd.
    unfold dot_file_at in Hd. rewrite Hc, Z.eqb_refl in Hd. cbn [andb] in Hd.
    destruct Hs as [->|Hs]; [discriminate|].
    rewrite Hs, Z.eqb_refl, orb_true_r in Hd. discriminate.
Qed.

(** ** Size of the memo table (lines 199-203) *)

(** When the table is allocated the needle is not longer than
    [haystack_limit], which is within the haystack; the table has at least
    [needle_len] cells, so its size is positive and cell 0, the one of the
    first call, is inside. *)
Theorem memo_table_holds_first_cell
    shl haystack needle cs al nv all nb hb m size b :
  prepare shl haystack needle cs al nv all nb hb = Search m size b ->
  1 <= needle_len m <= last_rightmost m + 1 /\
  last_rightmost m + 1 <= haystack_len m /\
  needle_len m <= size /\
  in_table 0 (cells (fresh_memo size)) = true.
Proof.
  intros P.
  destruct (prepare_search _ _ _ _ _ _ _ _ _ _ _ _ P)
    as (_ & _ & Hlen & _ & _ & _ & _ & Hsize).
  destruct (prepare_search_scan _ _ _ _ _ _ _ _ _ _ _ _ P)
    as (Hn & _).
  cbv zeta in Hn. rewrite <- Hlen in Hn.
  pose proof (rightmost_table_is_increasing_match _ _ _ _ _ _ _ _ _ _ _ _ P
                (needle_len m - 1)) as R.
  destruct (R ltac:(lia)) as ((Hlo & Hhi) & _).
  fold (last_rightmost m) in Hlo, Hhi.
  assert (Hs : needle_len m <= size) by nia.
  repeat split; try lia.
  unfold in_table, fresh_memo. cbn [cells]. rewrite repeat_length.
  apply andb_true_iff. split; [reflexivity|]. apply Z.ltb_lt. lia.
Qed.

Lemma memo_table_witness :
  exists m size b,
    prepare shl_x86 "abcxabc" "abc" false true false true 0 0 =
      Search m size b /\
    1 <= needle_len m <= last_rightmost m + 1 /\
    last_rightmost m + 1 <= haystack_len m /\
    needle_len m <= size /\
    in_table 0 (cells (fresh_memo size)) = true.
Proof.
  eexists. eexists. eexists.
  split; [vm_compute; reflexivity|].
  apply (memo_table_holds_first_cell shl_x86 "abcxabc" "abc"
           false true false true 0 0 _ _ _ eq_refl).
Defined.

(** ** A dot-file at the start of the haystack (lines 57-67) *)

Lemma prepare_early_zero shl haystack needle cs al nv all nb hb score b :
  prepare shl haystack needle cs al nv all nb hb = Early score b ->
  needle <> "" -> haystack <> "" -> score = 0%float.
Proof.
  intros P Hn Hh.
  destruct needle as [|a needle]; [contradiction|].
  destruct haystack as [|c haystack]; [contradiction|].
  pose proof (len_codes_pos a needle) as Ln.
  pose proof (len_codes_pos c haystack) as Lh.
  revert P. unfold prepare.
  replace (len (codes (String a needle)) =? 0) with false by lia.
  replace (len (codes (String c haystack)) >? 0) with true by lia.
  cbv zeta.
  repeat match goal with
         | |- context [if ?b then _ else _] => destruct b
         end; intros P; try discriminate; injection P as <- _; reflexivity.
Qed.

(** A haystack that starts with [.] scores 0 for every non-empty needle when
    [never_show_dot_files] is set, and also when [always_show_dot_files] is
    off and the needle does not start with [.]: the first iteration of the
    first call returns at line 66. *)
Theorem leading_dot_file_scores_zero
    shl haystack needle cs al nv all nb hb :
  needle <> "" ->
  char_at (codes haystack) 0 = ch "." ->
  nv = true \/ (al = false /\ char_at (codes needle) 0 <> ch ".") ->
  score_match shl haystack needle cs al nv all nb hb = Done 0%float.
Proof.
  intros Hn Hdot Hopt.
  assert (Hh : haystack <> "") by (intros ->; discriminate Hdot).
  unfold score_match, calculate_match.
  destruct (prepare shl haystack needle cs al nv all nb hb)
    as [score b|m size b] eqn:P.
  - rewrite (prepare_early_zero _ _ _ _ _ _ _ _ _ _ _ P Hn Hh). reflexivity.
  - destruct (prepare_search _ _ _ _ _ _ _ _ _ _ _ _ P)
      as (Hhp & Hnp & Hlen & Hal & Hnv & _ & _ & _).
    destruct (memo_table_holds_first_cell _ _ _ _ _ _ _ _ _ _ _ _ P)
      as (Hnl & _ & _ & Hin).
    pose proof (rightmost_table_is_increasing_match _ _ _ _ _ _ _ _ _ _ _ _ P
                  0) as R.
    destruct (R ltac:(lia)) as ((Hr0 & _) & _). clear R.
    unfold recursive_match.
    replace (Z.to_nat (needle_len m - 0))
      with (S (Z.to_nat (needle_len m - 1))) by lia.
    rewrite recursive_match_rest_S. cbv zeta.
    replace (needle_len m - Z.of_nat (S (Z.to_nat (needle_len m - 1))))
      with 0 by lia.
    replace ((0 >? 0) || (0 + (needle_len m - 0) >? last_rightmost m + 1))
      with false by lia.
    change (0 * needle_len m + 0) with 0.
    unfold bind at 1. unfold memo_read. rewrite Hin.
    unfold fresh_memo at 1. cbn [cells]. rewrite nth_repeat_UNSET.
    change (fne UNSET UNSET) with false. cbv iota.
    change (Z.to_nat 0) with 0%nat.
    replace (Z.to_nat (nth 0 (rightmost_match_p m) 0 + 1 - 0))
      with (S (Z.to_nat (nth 0 (rightmost_match_p m) 0)))
      by (change (Z.to_nat 0) with 0%nat in Hr0; lia).
    unfold bind at 1. rewrite for_loop_step.
    assert (Hwall : fold_haystack_char m (char_at (needle_p m) 0) 0 = None).
    { unfold fold_haystack_char. rewrite Hhp, Hnp, Hal, Hnv, Hdot.
      rewrite Z.eqb_refl. cbn [Z.eqb orb].
      destruct Hopt as [->|[-> Hc]]; [reflexivity|].
      apply Z.eqb_neq in Hc. rewrite Hc. cbn. rewrite orb_true_r. reflexivity. }
    unfold loop_body at 1. rewrite Hwall. unfold ret at 1.
    unfold bind, memo_write, ret. cbn [cells visited].
    unfold fresh_memo in Hin |- *. cbn [cells] in Hin |- *. rewrite Hin.
    reflexivity.
Qed.

Lemma leading_dot_file_witness :
  ".gitignore" <> "" /\ "git" <> "" /\
  char_at (codes ".gitignore") 0 = ch "." /\
  (false = true \/ (false = false /\ char_at (codes "git") 0 <> ch ".")) /\
  score_match shl_x86 ".gitignore" "git" false false false true 0 0 =
    Done 0%float.
Proof.
  assert (H : false = true \/
              (false = false /\ char_at (codes "git") 0 <> ch "."))
    by (right; split; [reflexivity|vm_compute; discriminate]).
  split; [discriminate|]. split; [discriminate|]. split; [reflexivity|].
  split; [exact H|].
  apply (leading_dot_file_scores_zero shl_x86 ".gitignore" "git");
    [discriminate|reflexivity|exact H].
Defined.

(** ** Runs of [recursive_match] that stay inside the table *)

Lemma store_length t : forall n v, List.length (store t n v) = List.length t.
Proof. induction t as [|x t IH]; intros [|n] v; cbn; auto. Qed.

Section Invariant.

(** A property of the memo state that every step keeps. *)
Variable good : memo_state -> Prop.

Lemma for_loop_total (body : Z -> float -> memoM flow) :
  (forall i s st, good st ->
     exists f st', body i s st = Done (f, st') /\ good st') ->
  forall n i s st, good st ->
    exists v st', for_loop n i s body st = Done (v, st') /\ good st'.
Proof.
  intros Hbody. induction n as [|n IH]; intros i s st Hst.
  - exists s, st. split; [reflexivity|exact Hst].
  - rewrite for_loop_step.
    destruct (Hbody i s st Hst) as (f & st' & -> & Hst').
    destruct f as [s'|s'|v]; [apply IH; exact Hst'| |]; eauto.
Qed.

Lemma loop_body_total m (call : Z -> memoM float) h c :
  (forall i st, good st -> exists v st', call i st = Done (v, st') /\ good st') ->
  forall i s st, good st ->
    exists f st', loop_body m call h c i s st = Done (f, st') /\ good st'.
Proof.
  intros Hcall i s st Hst. unfold loop_body.
  destruct (fold_haystack_char m c i) as [d|]; [|unfold ret; eauto].
  destruct (c =? d); [|unfold ret; eauto].
  unfold bind. destruct (Hcall (i + 1) st Hst) as (r & st' & -> & Hst').
  destruct (fgt _ s); [destruct (negb _)|]; unfold ret; eauto.
Qed.

Lemma for_loop_keeps (body : Z -> float -> memoM flow) :
  (forall i s st f st', body i s st = Done (f, st') -> good st -> good st') ->
  forall n i s st v st',
    for_loop n i s body st = Done (v, st') -> good st -> good st'.
Proof.
  intros Hbody. induction n as [|n IH]; intros i s st v st' H Hst.
  - injection H as _ <-. exact Hst.
  - rewrite for_loop_step in H.
    destruct (body i s st) as [[f st1]|k] eqn:Eb; [|discriminate].
    pose proof (Hbody _ _ _ _ _ Eb Hst) as Hst1.
    destruct f as [s1|s1|v1].
    + apply (IH _ _ _ _ _ H Hst1).
    + injection H as _ <-. exact Hst1.
    + injection H as _ <-. exact Hst1.
Qed.

Lemma loop_body_keeps m (call : Z -> memoM float) h c :
  (forall i st v st', call i st = Done (v, st') -> good st -> good st') ->
  forall i s st f st',
    loop_body m call h c i s st = Done (f, st') -> good st -> good st'.
Proof.
  intros Hcall i s st f st' H Hst. unfold loop_body in H.
  destruct (fold_haystack_char m c i) as [d|];
    [|injection H as _ <-; exact Hst].
  destruct (c =? d); [|injection H as _ <-; exact Hst].
  unfold bind in H.
  destruct (call (i + 1) st) as [[r st1]|k] eqn:Ec; [|discriminate].
  pose proof (Hcall _ _ _ _ Ec Hst) as Hst1.
  destruct (fgt _ s); [destruct (negb _)|]; injection H as _ <-; exact Hst1.
Qed.

End Invariant.

Lemma recursive_match_visits_region m : forall rest h st v st',
  Z.of_nat rest <= needle_len m ->
  recursive_match_rest rest m h st = Done (v, st') ->
  Forall (cell_in_region m) (visited st) ->
  Forall (cell_in_region m) (visited st').
Proof.
  induction rest as [|rest IH]; intros h st v st' Hr H Hst.
  - injection H as _ <-. exact Hst.
  - rewrite recursive_match_rest_S in H. cbv zeta in H.
    set (k := needle_len m - Z.of_nat (S rest)) in *.
    destruct ((k >? h) || (h + (needle_len m - k) >? last_rightmost m + 1))
      eqn:G; [injection H as _ <-; exact Hst|].
    unfold bind at 1 in H. unfold memo_read in H.
    destruct (in_table (k * needle_len m + h) (cells st)); [|discriminate].
    set (st1 := {| cells := cells st; visited := (k, h) :: visited st |}) in *.
    assert (Hst1 : Forall (cell_in_region m) (visited st1)).
    { constructor; [|exact Hst]. unfold cell_in_region. cbn [fst snd]. lia. }
    destruct (fne _ UNSET); [injection H as _ <-; exact Hst1|].
    unfold bind at 1 in H.
    destruct (for_loop _ h NON_MATCH _ st1) as [[v2 st2]|j] eqn:El;
      [|discriminate].
    assert (Hst2 : Forall (cell_in_region m) (visited st2)).
    { refine (for_loop_keeps
                (fun s => Forall (cell_in_region m) (visited s))
                _ _ _ _ _ _ _ _ El Hst1).
      apply (loop_body_keeps
               (fun s => Forall (cell_in_region m) (visited s))).
      intros i s0 v0 s0' Hc.
      apply (IH _ _ _ _ ltac:(lia) Hc). }
    unfold bind, memo_write in H.
    destruct (in_table (k * needle_len m + h) (cells st2)); [|discriminate].
    injection H as _ <-. exact Hst2.
Qed.

Section InBounds.

Variable m : matchinfo_t.
Variable size : Z.

Hypothesis size_eq :
  size = (last_rightmost m + 1) * needle_len m -
         (needle_len m * needle_len m - needle_len m).
Hypothesis roomy :
  needle_len m = 1 \/ 2 * needle_len m <= last_rightmost m + 1.

Let sized (st : memo_state) : Prop :=
  List.length (cells st) = Z.to_nat size.

Lemma region_cell_in_table k h st :
  0 <= k < needle_len m -> k <= h ->
  h + (needle_len m - k) <= last_rightmost m + 1 ->
  sized st -> in_table (k * needle_len m + h) (cells st) = true.
Proof.
  intros Hk Hh Hl Hs. unfold in_table. rewrite Hs.
  apply andb_true_iff. split; [apply Z.leb_le; nia|].
  apply Z.ltb_lt.
  assert (k * needle_len m + h < size); [|lia].
  rewrite size_eq. destruct roomy as [H1|H2].
  - rewrite H1 in *. assert (k = 0) by lia. subst k. lia.
  - nia.
Qed.

Lemma recursive_match_in_bounds : forall rest h st,
  Z.of_nat rest <= needle_len m -> sized st ->
  exists v st', recursive_match_rest rest m h st = Done (v, st') /\ sized st'.
Proof.
  induction rest as [|rest IH]; intros h st Hr Hst.
  - exists 0%float, st. split; [reflexivity|exact Hst].
  - rewrite recursive_match_rest_S. cbv zeta.
    set (k := needle_len m - Z.of_nat (S rest)) in *.
    destruct ((k >? h) || (h + (needle_len m - k) >? last_rightmost m + 1))
      eqn:G; [exists NON_MATCH, st; split; [reflexivity|exact Hst]|].
    assert (Hin : forall s, sized s ->
              in_table (k * needle_len m + h) (cells s) = true)
      by (intros s Hs; apply region_cell_in_table; try assumption; lia).
    unfold bind at 1. unfold memo_read. rewrite (Hin st Hst).
    set (st1 := {| cells := cells st; visited := (k, h) :: visited st |}).
    assert (Hst1 : sized st1) by exact Hst.
    destruct (fne _ UNSET); [unfold ret; eauto|].
    unfold bind at 1.
    destruct (for_loop_total sized
                (loop_body m (recursive_match_rest rest m) h
                   (char_at (needle_p m) k))
                (loop_body_total sized m _ h _
                   (fun i s Hs => IH i s ltac:(lia) Hs))
                (Z.to_nat (nth (Z.to_nat k) (rightmost_match_p m) 0 + 1 - h))
                h NON_MATCH st1 Hst1) as (v & st2 & -> & Hst2).
    unfold bind, memo_write, ret. rewrite (Hin st2 Hst2).
    eexists. eexists. split; [reflexivity|].
    unfold sized in *. cbn [cells]. rewrite store_length. exact Hst2.
Qed.

End InBounds.

(** In a call that returns, every cell (needle_idx, haystack_idx) at which
    the table was addressed has [needle_idx <= haystack_idx] and leaves room
    in the haystack for the rest of the needle; so no index is negative. *)
Theorem memo_cells_lie_in_feasible_region
    shl haystack needle cs al nv all nb hb k h :
  In (k, h) (memo_cells_visited shl haystack needle cs al nv all nb hb) ->
  0 <= k < len (codes needle) /\ k <= h /\
  h + (len (codes needle) - k) <= len (codes haystack).
Proof.
  unfold memo_cells_visited.
  destruct (prepare shl haystack needle cs al nv all nb hb)
    as [score b|m size b] eqn:P; [intros []|].
  destruct (recursive_match m 0 0 (fresh_memo size)) as [[v st]|j] eqn:R;
    [|intros []].
  intros Hin. apply in_rev in Hin.
  destruct (prepare_search _ _ _ _ _ _ _ _ _ _ _ _ P)
    as (_ & _ & Hlen & _).
  destruct (memo_table_holds_first_cell _ _ _ _ _ _ _ _ _ _ _ _ P)
    as (Hnl & Hlast & _).
  destruct (prepare_search_scan _ _ _ _ _ _ _ _ _ _ _ _ P)
    as (_ & _ & _ & _ & Hhl & _).
  unfold recursive_match in R.
  assert (F : Forall (cell_in_region m) (visited st)).
  { apply (recursive_match_visits_region m (Z.to_nat (needle_len m - 0)) 0
             (fresh_memo size) v st ltac:(lia) R).
    constructor. }
  rewrite Forall_forall in F. specialize (F _ Hin).
  unfold cell_in_region in F. cbn [fst snd] in F.
  rewrite <- Hlen, <- Hhl. lia.
Qed.

Lemma memo_cells_region_witness :
  In (1, 5)
     (memo_cells_visited shl_x86 "abcxabc" "abc" false true false true 0 0) /\
  0 <= 1 < len (codes "abc") /\ 1 <= 5 /\
  5 + (len (codes "abc") - 1) <= len (codes "abcxabc").
Proof.
  assert (H : In (1, 5)
     (memo_cells_visited shl_x86 "abcxabc" "abc" false true false true 0 0))
    by (vm_compute; do 4 right; left; reflexivity).
  split; [exact H|].
  apply (memo_cells_lie_in_feasible_region shl_x86 "abcxabc" "abc"
           false true false true 0 0 1 5 H).
Defined.

(** When the needle has one character, or [haystack_limit] is at least twice
    the needle length, no access leaves the table and [calculate_match]
    returns a score. *)
Theorem roomy_table_is_never_left
    shl haystack needle cs al nv all nb hb m size b :
  prepare shl haystack needle cs al nv all nb hb = Search m size b ->
  needle_len m = 1 \/ 2 * needle_len m <= last_rightmost m + 1 ->
  exists score,
    calculate_match shl haystack needle cs al nv all nb hb = Done (score, b).
Proof.
  intros P Hroom.
  destruct (prepare_search _ _ _ _ _ _ _ _ _ _ _ _ P)
    as (_ & _ & _ & _ & _ & _ & _ & Hsize).
  destruct (memo_table_holds_first_cell _ _ _ _ _ _ _ _ _ _ _ _ P)
    as (Hnl & _ & Hs & _).
  unfold calculate_match. rewrite P. unfold recursive_match.
  destruct (recursive_match_in_bounds m size Hsize Hroom
              (Z.to_nat (needle_len m - 0)) 0 (fresh_memo size)
              ltac:(lia))
    as (v & st & -> & _).
  - unfold fresh_memo. cbn [cells]. apply repeat_length.
  - eexists. reflexivity.
Qed.

Lemma roomy_table_witness :
  exists m size b,
    prepare shl_x86 "abcxabc" "abc" false true false true 0 0 =
      Search m size b /\
    (needle_len m = 1 \/ 2 * needle_len m <= last_rightmost m + 1) /\
    exists score,
      calculate_match shl_x86 "abcxabc" "abc" false true false true 0 0 =
      Done (score, b).
Proof.
  eexists. eexists. eexists.
  split; [vm_compute; reflexivity|].
  assert (H : forall m : matchinfo_t,
            needle_len m = 3 -> last_rightmost m = 6 ->
            needle_len m = 1 \/ 2 * needle_len m <= last_rightmost m + 1)
    by (intros m -> ->; right; vm_compute; discriminate).
  split; [apply H; reflexivity|].
  apply (roomy_table_is_never_left shl_x86 "abcxabc" "abc"
           false true false true 0 0 _ _ _ eq_refl).
  apply H; reflexivity.
Defined.

(** ** The bitmask test (lines 157-161) *)

Lemma scan_ignores_bitmask_flag shl hp np cs cb cb' cnt : forall st st',
  cursor st = cursor st' -> rightmost st = rightmost st' ->
  cursor (scan shl hp np cs cb cnt st) =
    cursor (scan shl hp np cs cb' cnt st') /\
  rightmost (scan shl hp np cs cb cnt st) =
    rightmost (scan shl hp np cs cb' cnt st').
Proof.
  induction cnt as [|cnt IH]; intros st st' Hc Hr; [auto|].
  cbn [scan]. apply IH.
  - rewrite !scan_step_cursor, Hc. reflexivity.
  - rewrite !scan_step_rightmost, Hc, Hr. reflexivity.
Qed.

Lemma prepare_passing_bitmask shl haystack needle cs al nv all nb nb' hb :
  hb <> 0 -> Z.land nb hb = nb ->
  prepare shl haystack needle cs al nv all nb hb =
  with_bitmask (prepare shl haystack needle cs al nv all nb' 0) hb.
Proof.
  intros Hhb Hland. unfold prepare. cbv zeta.
  destruct (len (codes needle) =? 0);
    [destruct (negb al && has_dot_file (codes haystack)); reflexivity|].
  destruct (len (codes haystack) >? 0); [|reflexivity].
  replace (negb (hb =? 0) && negb (Z.land nb hb =? nb)) with false by lia.
  change (0 =? 0) with true. cbn [negb andb].
  replace (hb =? 0) with false by lia.
  destruct (scan_ignores_bitmask_flag shl (codes haystack) (codes needle) cs
              false true (Z.to_nat (len (codes haystack)))
              {| cursor := len (codes needle) - 1; mask := 0;
                 rightmost := repeat 0 (Z.to_nat (len (codes needle))) |}
              {| cursor := len (codes needle) - 1; mask := 0;
                 rightmost := repeat 0 (Z.to_nat (len (codes needle))) |}
              eq_refl eq_refl) as [Hc Hr].
  rewrite Hc.
  match goal with |- context [if ?b then _ else _] => destruct b end;
    [reflexivity|].
  cbn [with_bitmask]. unfold last_rightmost. cbn [rightmost_match_p needle_len].
  rewrite Hr. reflexivity.
Qed.

(** A non-zero [haystack_bitmask] that passes the test of line 158 changes
    nothing but the bitmask reported: the score is the one computed with
    bitmask 0, and [*haystack_bitmask] is left as passed. *)
Theorem passing_bitmask_leaves_score
    shl haystack needle cs al nv all nb nb' hb :
  hb <> 0 -> Z.land nb hb = nb ->
  calculate_match shl haystack needle cs al nv all nb hb =
  match calculate_match shl haystack needle cs al nv all nb' 0 with
  | Done (score, _) => Done (score, hb)
  | OutOfBounds idx => OutOfBounds idx
  end.
Proof.
  intros Hhb Hland. unfold calculate_match.
  rewrite (prepare_passing_bitmask shl haystack needle cs al nv all nb nb' hb
             Hhb Hland).
  destruct (prepare shl haystack needle cs al nv all nb' 0)
    as [score b|m size b]; cbn [with_bitmask]; [reflexivity|].
  destruct (recursive_match m 0 0 (fresh_memo size)) as [[v st]|j];
    reflexivity.
Qed.

Lemma passing_bitmask_witness :
  7 <> 0 /\ Z.land 1 7 = 1 /\
  calculate_match shl_x86 "abc" "a" false false false false 1 7 =
  match calculate_match shl_x86 "abc" "a" false false false false 0 0 with
  | Done (score, _) => Done (score, 7)
  | OutOfBounds idx => OutOfBounds idx
  end.
Proof.
  split; [discriminate|]. split; [reflexivity|].
  apply (passing_bitmask_leaves_score shl_x86 "abc" "a");
    [discriminate|reflexivity].
Defined.

(** With both strings non-empty, a non-zero [haystack_bitmask] that lacks a
    bit of [needle_bitmask] gives score 0 and is left as passed. *)
Theorem failing_bitmask_scores_zero
    shl haystack needle cs al nv all nb hb :
  haystack <> "" -> needle <> "" ->
  hb <> 0 -> Z.land nb hb <> nb ->
  calculate_match shl haystack needle cs al nv all nb hb = Done (0%float, hb).
Proof.
  intros Hh Hn Hhb Hland.
  destruct needle as [|a needle]; [contradiction|].
  destruct haystack as [|c haystack]; [contradiction|].
  pose proof (len_codes_pos a needle) as Ln.
  pose proof (len_codes_pos c haystack) as Lh.
  unfold calculate_match, prepare.
  replace (len (codes (String a needle)) =? 0) with false by lia.
  replace (len (codes (String c haystack)) >? 0) with true by lia.
  replace (negb (hb =? 0) && negb (Z.land nb hb =? nb)) with true by lia.
  reflexivity.
Qed.

Lemma failing_bitmask_witness :
  "abc" <> "" /\ "x" <> "" /\ 7 <> 0 /\
  Z.land (Z.shiftl 1 23) 7 <> Z.shiftl 1 23 /\
  calculate_match shl_x86 "abc" "x" false false false false (Z.shiftl 1 23) 7
    = Done (0%float, 7).
Proof.
  split; [discriminate|]. split; [discriminate|]. split; [discriminate|].
  split; [vm_compute; discriminate|].
  apply (failing_bitmask_scores_zero shl_x86 "abc" "x");
    [discriminate|discriminate|discriminate|vm_compute; discriminate].
Defined.

Lemma is_subsequence_In : forall hp np c,
  is_subsequence np hp = true -> In c np -> In c hp.
Proof.
  induction hp as [|d hp IH]; intros [|x np] c H Hin;
    try contradiction; try discriminate.
  cbn [is_subsequence] in H. destruct (x =? d) eqn:E.
  - apply Z.eqb_eq in E. subst x. destruct Hin as [->|Hin]; [left; reflexivity|].
    right. apply (IH np c H Hin).
  - right. apply (IH (x :: np) c H Hin).
Qed.

Lemma lower_of_key cs d t :
  0 <= t < 26 -> haystack_key cs d = ch "a" + t -> lower_of d = ch "a" + t.
Proof.
  intros Ht. unfold haystack_key. destruct cs; [|auto].
  intros ->. unfold lower_of.
  change (ch "a") with 97. change (ch "A") with 65. change (ch "Z") with 90.
  replace ((65 <=? 97 + t) && (97 + t <=? 90)) with false by lia. reflexivity.
Qed.

(** The bitmask test rejects no match: if [needle_bitmask] has only bits of
    lower-case letters that occur in the needle, and the bitmask reported by
    an earlier call on the same haystack lacks one of them, then the full
    computation (bitmask 0) scores 0 as well. *)
Theorem rejected_needles_do_not_match
    shl haystack needle needle0 cs cs0 al0 nv0 all0 nb0 al nv all nb nb' :
  haystack <> "" -> needle <> "" -> needle0 <> "" ->
  (forall t, Z.testbit nb t = true ->
     0 <= t < 26 /\
     exists j, 0 <= j < len (codes needle) /\
               char_at (codes needle) j = ch "a" + t) ->
  Z.land nb (bitmask_of (prepare shl haystack needle0 cs0 al0 nv0 all0 nb0 0))
    <> nb ->
  score_match shl haystack needle cs al nv all nb' 0 = Done 0%float.
Proof.
  intros Hh Hn Hn0 Hnb Hrej.
  apply not_subsequence_scores_zero; [exact Hh|].
  destruct (is_subsequence (codes needle)
              (map (haystack_key cs) (codes haystack))) eqn:E; [|reflexivity].
  exfalso. apply Hrej. apply Z.bits_inj'. intros t _.
  rewrite Z.land_spec.
  destruct (Z.testbit nb t) eqn:Et; [|reflexivity]. cbn [andb].
  destruct (Hnb t Et) as (Ht & j & Hj & Hc).
  assert (Hin : In (ch "a" + t) (codes needle)).
  { rewrite <- Hc. apply nth_In. unfold len in Hj. lia. }
  apply (is_subsequence_In _ _ _ E) in Hin.
  apply in_map_iff in Hin. destruct Hin as (d & Hd & Hdin).
  destruct (In_nth _ _ 0 Hdin) as (i & Hi & Hnth).
  assert (Hl : lower_of (char_at (codes haystack) (Z.of_nat i)) = ch "a" + t).
  { unfold char_at. rewrite Nat2Z.id, Hnth.
    apply (lower_of_key cs); assumption. }
  pose proof (haystack_letters_set_their_bits shl haystack needle0 cs0 al0 nv0
                all0 nb0 (Z.of_nat i) Hh Hn0) as B.
  rewrite Hl in B.
  replace (ch "a" + t - ch "a") with t in B by lia.
  apply B; [unfold len; lia|].
  change (ch "a") with 97. change (ch "z") with 122. lia.
Qed.

Lemma rejected_needles_witness :
  "abc" <> "" /\ "x" <> "" /\ "a" <> "" /\
  (forall t, Z.testbit (Z.shiftl 1 23) t = true ->
     0 <= t < 26 /\
     exists j, 0 <= j < len (codes "x") /\
               char_at (codes "x") j = ch "a" + t) /\
  Z.land (Z.shiftl 1 23)
    (bitmask_of (prepare shl_x86 "abc" "a" false false false false 0 0))
    <> Z.shiftl 1 23 /\
  score_match shl_x86 "abc" "x" false false false false 0 0 = Done 0%float.
Proof.
  assert (H : forall t, Z.testbit (Z.shiftl 1 23) t = true ->
     0 <= t < 26 /\
     exists j, 0 <= j < len (codes "x") /\
               char_at (codes "x") j = ch "a" + t).
  { intros t Ht. apply testbit_shiftl_one in Ht; [|lia]. subst t.
    split; [lia|]. exists 0. split; [vm_compute; split; first [discriminate|reflexivity]|].
    reflexivity. }
  assert (R : Z.land (Z.shiftl 1 23)
    (bitmask_of (prepare shl_x86 "abc" "a" false false false false 0 0))
    <> Z.shiftl 1 23) by (vm_compute; discriminate).
  split; [discriminate|]. split; [discriminate|]. split; [discriminate|].
  split; [exact H|]. split; [exact R|].
  apply (rejected_needles_do_not_match shl_x86 "abc" "x" "a"
           false false false false false 0 false false false
           (Z.shiftl 1 23) 0);
    [discriminate|discriminate|discriminate|exact H|exact R].
Defined.

(** ** Short tables *)

(** Two cells that the guard lets through never share a table index when
    [haystack_limit] is at most twice the needle length. *)
Theorem short_tables_have_no_collision m c1 c2 :
  cell_in_region m c1 -> cell_in_region m c2 ->
  last_rightmost m + 1 <= 2 * needle_len m ->
  memo_index m c1 = memo_index m c2 -> c1 = c2.
Proof.
  destruct c1 as [k1 h1], c2 as [k2 h2].
  unfold cell_in_region, memo_index. cbn [fst snd].
  intros (Hk1 & Hh1 & Hl1) (Hk2 & Hh2 & Hl2) Hshort Heq.
  assert (k1 = k2) by nia. subst k2.
  f_equal. lia.
Qed.

Lemma short_tables_witness :
  cell_in_region ad_in_abcd (1, 2) /\ cell_in_region ad_in_abcd (1, 2) /\
  last_rightmost ad_in_abcd + 1 <= 2 * needle_len ad_in_abcd /\
  memo_index ad_in_abcd (1, 2) = memo_index ad_in_abcd (1, 2) /\
  (1, 2) = (1, 2).
Proof.
  assert (R : cell_in_region ad_in_abcd (1, 2))
    by (unfold cell_in_region; cbn [fst snd];
        change (needle_len ad_in_abcd) with 2;
        change (last_rightmost ad_in_abcd) with 3; lia).
  assert (S : last_rightmost ad_in_abcd + 1 <= 2 * needle_len ad_in_abcd)
    by (change (needle_len ad_in_abcd) with 2;
        change (last_rightmost ad_in_abcd) with 3; lia).
  split; [exact R|]. split; [exact R|]. split; [exact S|].
  split; [reflexivity|].
  exact (short_tables_have_no_collision ad_in_abcd (1, 2) (1, 2) R R S eq_refl).
Defined.

(** ** Memoized calls (lines 47-53 and 117) *)

Lemma nth_store_same t : forall n v,
  (n < List.length t)%nat -> nth n (store t n v) UNSET = v.
Proof.
  induction t as [|x t IH]; intros [|n] v H; cbn in *; try lia; auto.
  apply IH. lia.
Qed.

Lemma in_table_store idx t n v :
  in_table idx (store t n v) = in_table idx t.
Proof. unfold in_table. rewrite store_length. reflexivity. Qed.

(** A call that the guard lets through and that returns [v] has left [v] in
    its cell; unless [v] is the [UNSET] value itself, the same call made again
    returns [v] from the table, which it leaves as it is. *)
Theorem memoized_call_is_replayed m rest h st v st' :
  let k := needle_len m - Z.of_nat (S rest) in
  (k >? h) || (h + (needle_len m - k) >? last_rightmost m + 1) = false ->
  recursive_match_rest (S rest) m h st = Done (v, st') ->
  PrimFloat.eqb v UNSET = false ->
  nth (Z.to_nat (k * needle_len m + h)) (cells st') UNSET = v /\
  recursive_match_rest (S rest) m h st' =
    Done (v, {| cells := cells st'; visited := (k, h) :: visited st' |}).
Proof.
  intros k G H Hv.
  assert (Replay : forall s,
            in_table (k * needle_len m + h) (cells s) = true ->
            nth (Z.to_nat (k * needle_len m + h)) (cells s) UNSET = v ->
            recursive_match_rest (S rest) m h s =
            Done (v, {| cells := cells s; visited := (k, h) :: visited s |})).
  { intros s Hin Hnth. rewrite recursive_match_rest_S. cbv zeta. fold k.
    rewrite G. unfold bind, memo_read. rewrite Hin, Hnth.
    unfold fne. rewrite Hv. reflexivity. }
  rewrite recursive_match_rest_S in H. cbv zeta in H. fold k in H.
  rewrite G in H. unfold bind at 1 in H. unfold memo_read in H.
  destruct (in_table (k * needle_len m + h) (cells st)) eqn:Hin;
    [|discriminate].
  destruct (fne (nth (Z.to_nat (k * needle_len m + h)) (cells st) UNSET) UNSET).
  - injection H as <- <-. split; [reflexivity|].
    apply Replay; [exact Hin|reflexivity].
  - unfold bind at 1 in H.
    match type of H with
    | context [for_loop ?n ?i ?s ?b ?x] =>
        destruct (for_loop n i s b x) as [[v2 st2]|j]; [|discriminate]
    end.
    unfold bind, memo_write, ret in H.
    destruct (in_table (k * needle_len m + h) (cells st2)) eqn:Hin2;
      [|discriminate].
    injection H as <- <-.
    assert (Hlt : (Z.to_nat (k * needle_len m + h) < List.length (cells st2))%nat).
    { unfold in_table in Hin2. lia. }
    split; [cbn [cells]; apply nth_store_same; exact Hlt|].
    apply Replay; cbn [cells].
    + rewrite in_table_store. exact Hin2.
    + apply nth_store_same. exact Hlt.
Qed.

Lemma memoized_call_witness :
  exists v st',
    (needle_len ad_in_abcd - Z.of_nat 1 >? 2) ||
    (2 + (needle_len ad_in_abcd - (needle_len ad_in_abcd - Z.of_nat 1)) >?
     last_rightmost ad_in_abcd + 1) = false /\
    recursive_match_rest 1 ad_in_abcd 2 (fresh_memo 6) = Done (v, st') /\
    PrimFloat.eqb v UNSET = false /\
    nth (Z.to_nat ((needle_len ad_in_abcd - Z.of_nat 1) *
                   needle_len ad_in_abcd + 2)) (cells st') UNSET = v /\
    recursive_match_rest 1 ad_in_abcd 2 st' =
      Done (v, {| cells := cells st';
                  visited := (needle_len ad_in_abcd - Z.of_nat 1, 2)
                             :: visited st' |}).
Proof.
  eexists. eexists.
  split; [reflexivity|].
  split; [vm_compute; reflexivity|].
  split; [reflexivity|].
  apply (memoized_call_is_replayed ad_in_abcd 0 2 (fresh_memo 6));
    reflexivity.
Defined.

(** * Exhaustive scoring against the fast path *)

(** ** Binary digits *)

Lemma digits2_pos_size p : digits2_pos p = Pos.size p.
Proof. induction p; cbn; congruence. Qed.

Lemma digits_log2 m : 0 < m -> digits m = Z.log2 m + 1.
Proof.
  destruct m as [|p|p]; try lia. intros _. unfold digits. cbn [Zdigits2].
  rewrite digits2_pos_size. destruct p; cbn [Z.log2 Pos.size]; lia.
Qed.

Lemma digits_bounds m : 0 < m -> 2 ^ (digits m - 1) <= m < 2 ^ digits m.
Proof.
  intros H. rewrite digits_log2 by assumption.
  replace (Z.log2 m + 1 - 1) with (Z.log2 m) by lia.
  apply (Z.log2_spec m H).
Qed.

Lemma digits_pos m : 0 < m -> 0 < digits m.
Proof. intros H. rewrite digits_log2 by assumption. pose proof (Z.log2_nonneg m). lia. Qed.

Lemma digits_unique m d : 2 ^ (d - 1) <= m < 2 ^ d -> 0 < d -> digits m = d.
Proof.
  intros H Hd. assert (0 < m) by (pose proof (Z.pow_pos_nonneg 2 (d - 1)); lia).
  rewrite digits_log2 by assumption.
  assert (Z.log2 m = d - 1); [|lia].
  apply Z.log2_unique; [lia|]. replace (Z.succ (d - 1)) with d by lia. exact H.
Qed.

Lemma digits_le m1 m2 : 0 < m1 -> m1 <= m2 -> digits m1 <= digits m2.
Proof.
  intros H1 H2. rewrite !digits_log2 by lia.
  pose proof (Z.log2_le_mono m1 m2 H2). lia.
Qed.

Lemma digits_shift m k : 0 < m -> 0 <= k -> digits (m * 2 ^ k) = digits m + k.
Proof.
  intros H Hk. assert (0 < 2 ^ k) by (apply Z.pow_pos_nonneg; lia).
  rewrite !digits_log2 by nia. rewrite Z.log2_mul_pow2 by lia. lia.
Qed.

Lemma digits_lt_pow m d : 0 < m -> 0 <= d -> m < 2 ^ d -> digits m <= d.
Proof.
  intros H Hd Hm. rewrite digits_log2 by assumption.
  assert (Z.log2 m < d); [|lia]. apply Z.log2_lt_pow2; assumption.
Qed.

Lemma digits_ge_pow m d : 0 <= d -> 2 ^ d <= m -> d < digits m.
Proof.
  intros Hd Hm. assert (0 < m) by (pose proof (Z.pow_pos_nonneg 2 d); lia).
  rewrite digits_log2 by assumption.
  assert (d <= Z.log2 m); [|lia]. apply Z.log2_le_pow2; assumption.
Qed.

Lemma fexp_eq d : fexp prec emax d = Z.max (d - 53) (-1074).
Proof. reflexivity. Qed.

(** ** Shifting and rounding on codes *)

Lemma sshift_mono c1 c2 : c1 <= c2 -> sshift c1 <= sshift c2.
Proof.
  unfold sshift. intros H.
  destruct (c1 mod 4 =? 0) eqn:E1, (c2 mod 4 =? 0) eqn:E2;
    Z.to_euclidean_division_equations; lia.
Qed.

Lemma sshift_nonneg c : 0 <= c -> 0 <= sshift c.
Proof.
  unfold sshift. intros H. destruct (c mod 4 =? 0);
    Z.to_euclidean_division_equations; lia.
Qed.

Lemma rne_mono c1 c2 : c1 <= c2 -> rne c1 <= rne c2.
Proof.
  unfold rne. intros H.
  destruct ((c1 mod 4 =? 3) || ((c1 mod 4 =? 2) && Z.odd (c1 / 4))) eqn:E1,
           ((c2 mod 4 =? 3) || ((c2 mod 4 =? 2) && Z.odd (c2 / 4))) eqn:E2;
    try (Z.to_euclidean_division_equations; lia).
  (* c1 rounds up, c2 does not *)
  apply orb_false_iff in E2. destruct E2 as [E2a E2b].
  apply orb_true_iff in E1. destruct E1 as [E1|E1].
  - Z.to_euclidean_division_equations; lia.
  - apply andb_true_iff in E1. destruct E1 as [E1 O1].
    apply andb_false_iff in E2b.
    destruct (Z.eq_dec (c1 / 4) (c2 / 4)) as [Heq|Hne].
    + rewrite <- Heq in E2b. rewrite O1 in E2b.
      destruct E2b as [E2b|E2b]; [|discriminate].
      Z.to_euclidean_division_equations; lia.
    + Z.to_euclidean_division_equations; lia.
Qed.

Lemma rne_bounds c : 0 <= c -> c / 4 <= rne c <= c / 4 + 1.
Proof.
  unfold rne. intros H.
  destruct ((c mod 4 =? 3) || ((c mod 4 =? 2) && Z.odd (c / 4))); lia.
Qed.

Lemma rne_exact t : rne (4 * t) = t.
Proof.
  unfold rne. replace (4 * t) with (t * 4) by lia.
  rewrite Z.mod_mul, Z.div_mul by lia. cbn. lia.
Qed.

Lemma code_shr_1 mrs :
  0 <= shr_m mrs ->
  rcode (shr_1 mrs) = sshift (rcode mrs) /\ shr_m (shr_1 mrs) = shr_m mrs / 2.
Proof.
  destruct mrs as [m r s]. cbn [shr_m]. intros H. unfold rcode, sshift.
  destruct m as [|p|p]; [| |lia].
  - destruct r, s; cbn; split; reflexivity.
  - destruct p as [p|p|]; destruct r, s; cbn [shr_1 shr_m shr_r shr_s orb Z.b2z];
      split; try (Z.to_euclidean_division_equations; lia);
      match goal with
      | |- context [if ?b then _ else _] => destruct b eqn:E
      end; Z.to_euclidean_division_equations; lia.
Qed.

Lemma round_nearest_even_rne mrs :
  0 <= shr_m mrs ->
  round_nearest_even (shr_m mrs) (loc_of_shr_record mrs) = rne (rcode mrs).
Proof.
  destruct mrs as [m r s]. cbn [shr_m]. intros H. unfold rcode, rne.
  cbn [shr_m shr_r shr_s].
  assert (Hd : forall k, 0 <= k < 4 -> (4 * m + k) / 4 = m /\ (4 * m + k) mod 4 = k)
    by (intros; Z.to_euclidean_division_equations; lia).
  destruct r, s; cbn [loc_of_shr_record round_nearest_even Z.b2z].
  - destruct (Hd 3 ltac:(lia)) as [D M].
    replace (4 * m + 2 * 1 + 1) with (4 * m + 3) by lia. rewrite D, M. cbn. lia.
  - destruct (Hd 2 ltac:(lia)) as [D M].
    replace (4 * m + 2 * 1 + 0) with (4 * m + 2) by lia. rewrite D, M.
    cbn [Z.eqb Pos.eqb orb andb]. rewrite <- Z.negb_even.
    destruct (Z.even m); cbn; lia.
  - destruct (Hd 1 ltac:(lia)) as [D M].
    replace (4 * m + 2 * 0 + 1) with (4 * m + 1) by lia. rewrite D, M. cbn. lia.
  - destruct (Hd 0 ltac:(lia)) as [D M].
    replace (4 * m + 2 * 0 + 0) with (4 * m + 0) by lia. rewrite D, M. cbn. lia.
Qed.

(** ** Iterated shifts, and the two stages of [binary_round_aux] *)

Lemma iter_pos_nat {A} (f : A -> A) p : forall x,
  iter_pos f p x = Nat.iter (Pos.to_nat p) f x.
Proof.
  induction p as [p IH|p IH|]; intros x; cbn [iter_pos].
  - rewrite !IH, Pos2Nat.inj_xI.
    replace (S (2 * Pos.to_nat p)) with (Pos.to_nat p + Pos.to_nat p + 1)%nat by lia.
    rewrite !Nat.iter_add. reflexivity.
  - rewrite !IH, Pos2Nat.inj_xO.
    replace (2 * Pos.to_nat p)%nat with (Pos.to_nat p + Pos.to_nat p)%nat by lia.
    rewrite Nat.iter_add. reflexivity.
  - reflexivity.
Qed.

Lemma shr_eq mrs e n :
  shr mrs e n = if 0 <? n then (shiftn (Z.to_nat n) mrs, e + n) else (mrs, e).
Proof.
  unfold shr. destruct n as [|p|p]; cbn [Z.ltb Z.compare]; try reflexivity.
  rewrite iter_pos_nat. reflexivity.
Qed.

Lemma shiftn_S n mrs : shiftn (S n) mrs = shr_1 (shiftn n mrs).
Proof. reflexivity. Qed.

Lemma ssn_S n c : ssn (S n) c = sshift (ssn n c).
Proof. reflexivity. Qed.

Lemma ssn_S_r n c : ssn (S n) c = ssn n (sshift c).
Proof. unfold ssn. apply Nat.iter_succ_r. Qed.

Lemma shiftn_spec n : forall mrs,
  0 <= shr_m mrs ->
  rcode (shiftn n mrs) = ssn n (rcode mrs) /\
  shr_m (shiftn n mrs) = shr_m mrs / 2 ^ Z.of_nat n /\
  0 <= shr_m (shiftn n mrs).
Proof.
  induction n as [|n IH]; intros mrs H.
  - change (Z.of_nat 0) with 0. rewrite Z.pow_0_r, Z.div_1_r. auto.
  - rewrite shiftn_S, ssn_S.
    destruct (IH mrs H) as (Hc & Hm & Hp).
    destruct (code_shr_1 _ Hp) as [Hc' Hm'].
    rewrite Hc', Hc, Hm', Hm. split; [reflexivity|].
    rewrite Nat2Z.inj_succ, Z.pow_succ_r by lia.
    rewrite Z.div_div by (try apply Z.pow_pos_nonneg; lia).
    replace (2 ^ Z.of_nat n * 2) with (2 * 2 ^ Z.of_nat n) by lia.
    split; [reflexivity|].
    apply Z.div_pos; [exact H|]. apply Z.mul_pos_pos; [|apply Z.pow_pos_nonneg]; lia.
Qed.

Lemma ssn_mono n c1 c2 : c1 <= c2 -> ssn n c1 <= ssn n c2.
Proof.
  induction n as [|n IH]; intros H; [exact H|].
  rewrite !ssn_S. apply sshift_mono, IH, H.
Qed.

Lemma ssn_add n k c : ssn (n + k) c = ssn n (ssn k c).
Proof. unfold ssn. apply Nat.iter_add. Qed.

Lemma ssn_pow k : forall t, ssn k (4 * (t * 2 ^ Z.of_nat k)) = 4 * t.
Proof.
  induction k as [|k IH]; intros t.
  - change (Z.of_nat 0) with 0. rewrite Z.pow_0_r.
    change (ssn 0 (4 * (t * 1))) with (4 * (t * 1)). lia.
  - rewrite ssn_S_r.
    rewrite Nat2Z.inj_succ, Z.pow_succ_r by lia.
    assert (E : sshift (4 * (t * (2 * 2 ^ Z.of_nat k))) = 4 * (t * 2 ^ Z.of_nat k)).
    { unfold sshift.
      replace (4 * (t * (2 * 2 ^ Z.of_nat k))) with (2 * (t * 2 ^ Z.of_nat k) * 4) by ring.
      rewrite Z.mod_mul, Z.div_mul by lia. cbn [Z.eqb]. ring. }
    rewrite E. apply IH.
Qed.

Lemma ssn_quarter n c : 0 <= c -> ssn n c / 4 = (c / 4) / 2 ^ Z.of_nat n.
Proof.
  revert c. induction n as [|n IH]; intros c H.
  - change (Z.of_nat 0) with 0. rewrite Z.pow_0_r, Z.div_1_r. reflexivity.
  - rewrite ssn_S_r. rewrite IH by (apply sshift_nonneg; exact H).
    rewrite Nat2Z.inj_succ, Z.pow_succ_r by lia.
    rewrite <- Z.div_div by (try apply Z.pow_pos_nonneg; lia).
    f_equal. unfold sshift. destruct (c mod 4 =? 0);
      generalize (c / 4); intros q;
      Z.to_euclidean_division_equations; lia.
Qed.

Lemma code_of_loc m l : rcode (shr_record_of_loc m l) = 4 * m + locc l.
Proof.
  destruct l as [|[ | | ]]; unfold rcode;
    cbn [shr_record_of_loc shr_m shr_r shr_s Z.b2z locc]; lia.
Qed.

Lemma shr_m_of_loc m l : shr_m (shr_record_of_loc m l) = m.
Proof. destruct l as [|[ | | ]]; reflexivity. Qed.

(** [binary_round_aux] is the first shift, the rounding and [finish]. *)
Lemma bra_finish sx mx ex lx :
  binary_round_aux prec emax sx mx ex lx =
  let '(mrs', e') := shr_fexp prec emax mx ex lx in
  finish sx (round_nearest_even (shr_m mrs') (loc_of_shr_record mrs')) e'.
Proof.
  unfold binary_round_aux, finish.
  destruct (shr_fexp prec emax mx ex lx) as [mrs' e']. reflexivity.
Qed.

(** The first stage of [binary_round_aux]: the mantissa is shifted to the
    exponent of its magnitude. *)
Lemma stage1 m e l :
  0 <= m ->
  let E := fexp prec emax (digits m + e) in
  exists mrs' e',
    shr_fexp prec emax m e l = (mrs', e') /\ 0 <= shr_m mrs' /\
    e' = Z.max e E /\
    rcode mrs' = ssn (Z.to_nat (E - e)) (4 * m + locc l).
Proof.
  intros H E. unfold shr_fexp. fold (digits m). fold E. rewrite shr_eq.
  destruct (0 <? E - e) eqn:Hn.
  - apply Z.ltb_lt in Hn.
    destruct (shiftn_spec (Z.to_nat (E - e)) (shr_record_of_loc m l))
      as (Hc & Hm & Hp); [rewrite shr_m_of_loc; exact H|].
    eexists. eexists. split; [reflexivity|]. split; [exact Hp|].
    split; [lia|]. rewrite Hc, code_of_loc. reflexivity.
  - apply Z.ltb_ge in Hn.
    eexists. eexists. split; [reflexivity|].
    rewrite shr_m_of_loc. split; [exact H|]. split; [lia|].
    replace (Z.to_nat (E - e)) with 0%nat by lia. cbn. apply code_of_loc.
Qed.

(** ** The last stage of the rounding *)

Lemma finish_canon s m e : canon m e -> finish s m e = encode s m e.
Proof.
  intros (He & Hm & Hn). unfold finish, shr_fexp. rewrite shr_eq.
  fold (digits m). rewrite fexp_eq.
  assert (Hd : Z.max (digits m + e - 53) (-1074) - e <= 0).
  { destruct (Z.eq_dec m 0) as [->|Hz]; [cbn; lia|].
    assert (digits m <= 53) by (apply digits_lt_pow; lia). lia. }
  replace (0 <? Z.max (digits m + e - 53) (-1074) - e) with false
    by (symmetry; apply Z.ltb_ge; exact Hd).
  cbn [shr_record_of_loc shr_m]. unfold encode.
  destruct m; reflexivity.
Qed.

Lemma finish_top s e : -1074 <= e -> finish s (2 ^ 53) e = encode s (2 ^ 52) (e + 1).
Proof.
  intros He. unfold finish, shr_fexp. rewrite shr_eq.
  change (Zdigits2 (2 ^ 53)) with 54. rewrite fexp_eq.
  replace (Z.max (54 + e - 53) (-1074) - e) with 1 by lia.
  reflexivity.
Qed.

Lemma finish_rounded s m e :
  rounded m e ->
  finish s m e = encode s (fst (renorm m e)) (snd (renorm m e)) /\
  canon (fst (renorm m e)) (snd (renorm m e)) /\
  fst (renorm m e) * 2 ^ (snd (renorm m e) + 1074) = m * 2 ^ (e + 1074).
Proof.
  intros (He & Hm & Hn). unfold renorm.
  destruct (m =? 2 ^ 53) eqn:E.
  - apply Z.eqb_eq in E. subst m. cbn [fst snd].
    split; [apply finish_top; exact He|]. split; [unfold canon; lia|].
    replace (e + 1 + 1074) with (Z.succ (e + 1074)) by lia.
    rewrite Z.pow_succ_r by lia. change (2 ^ 53) with (2 ^ 52 * 2). ring.
  - apply Z.eqb_neq in E. cbn [fst snd].
    assert (C : canon m e) by (unfold canon; lia).
    split; [apply finish_canon; exact C|]. split; [exact C|reflexivity].
Qed.

Lemma pow2_le a b : 0 <= a <= b -> 2 ^ a <= 2 ^ b.
Proof. intros H. apply Z.pow_le_mono_r; lia. Qed.

Lemma pow2_pos a : 0 <= a -> 0 < 2 ^ a.
Proof. intros H. apply Z.pow_pos_nonneg; lia. Qed.

Lemma pow2_split a b : 0 <= a -> 0 <= b -> 2 ^ (a + b) = 2 ^ a * 2 ^ b.
Proof. intros. apply Z.pow_add_r; lia. Qed.

(** Doubles compare as their values do. *)
Lemma encode_le m1 e1 m2 e2 :
  canon m1 e1 -> canon m2 e2 ->
  m1 * 2 ^ (e1 + 1074) <= m2 * 2 ^ (e2 + 1074) ->
  SFleb (encode false m1 e1) (encode false m2 e2) = true.
Proof.
  intros (He1 & Hm1 & Hn1) (He2 & Hm2 & Hn2) Hv.
  pose proof (pow2_pos (e1 + 1074) ltac:(lia)) as P1.
  pose proof (pow2_pos (e2 + 1074) ltac:(lia)) as P2.
  assert (Hexp : 0 < m1 -> 0 < m2 -> e1 <= e2).
  { intros Z1 Z2. destruct (Z_le_gt_dec e1 e2) as [H|H]; [exact H|exfalso].
    specialize (Hn1 ltac:(lia)).
    replace (e1 + 1074) with ((e2 + 1074) + (e1 - e2)) in Hv by lia.
    rewrite pow2_split in Hv by lia.
    pose proof (pow2_le 1 (e1 - e2) ltac:(lia)) as Q. change (2 ^ 1) with 2 in Q.
    assert (m1 * 2 ^ (e1 - e2) <= m2).
    { apply (Z.mul_le_mono_pos_l _ _ (2 ^ (e2 + 1074)) P2). lia. }
    change (2 ^ 52) with 4503599627370496 in *.
    change (2 ^ 53) with 9007199254740992 in *. nia. }
  unfold encode, SFleb, SFcompare.
  destruct m1 as [|p1|p1]; [| |lia]; destruct m2 as [|p2|p2]; try lia.
  - destruct (e2 <=? 971); reflexivity.
  - specialize (Hexp ltac:(lia) ltac:(lia)).
    destruct (e1 <=? 971) eqn:L1, (e2 <=? 971) eqn:L2; try reflexivity.
    + destruct (Z.compare_spec e1 e2) as [Heq|Hlt|Hgt]; try reflexivity; try lia.
      subst e2. rewrite Pos.compare_cont_spec. cbn [Pos.switch_Eq].
      destruct (Pos.compare_spec p1 p2) as [H|H|H]; try reflexivity.
      exfalso. apply Z.mul_le_mono_pos_r in Hv; [lia|exact P1].
    + apply Z.leb_le in L2. apply Z.leb_gt in L1. lia.
Qed.

(** ** [binary_round] as a function of the value *)

Lemma pos_iter_xO p d : Z.pos (Pos.iter xO p d) = Z.pos p * 2 ^ Z.pos d.
Proof.
  induction d as [|d IH] using Pos.peano_ind.
  - cbn [Pos.iter]. lia.
  - rewrite Pos.iter_succ, Pos2Z.inj_succ, Z.pow_succ_r by lia.
    rewrite Pos2Z.inj_xO, IH. ring.
Qed.

Lemma shl_align_spec mx ex ex' :
  snd (shl_align mx ex ex') = Z.min ex ex' /\
  Z.pos (fst (shl_align mx ex ex')) = Z.pos mx * 2 ^ (ex - Z.min ex ex').
Proof.
  unfold shl_align. destruct (ex' - ex) as [|d|d] eqn:E; cbn [fst snd].
  - replace (Z.min ex ex') with ex by lia. rewrite Z.sub_diag. split; lia.
  - replace (Z.min ex ex') with ex by lia. rewrite Z.sub_diag. split; lia.
  - replace (Z.min ex ex') with ex' by lia. split; [reflexivity|].
    rewrite pos_iter_xO. f_equal. f_equal. lia.
Qed.

Lemma K_nonneg m e E : 0 <= m -> 0 <= kcode m e E.
Proof.
  intros H. unfold kcode. destruct (E <=? e) eqn:L.
  - apply Z.leb_le in L. pose proof (pow2_pos (e - E) ltac:(lia)). nia.
  - generalize (Z.to_nat (E - e)). intros n.
    assert (0 <= 4 * m) by lia. revert H0. generalize (4 * m).
    induction n as [|n IH]; intros c Hc; [exact Hc|].
    rewrite ssn_S. apply sshift_nonneg, IH, Hc.
Qed.

(** [binary_round] rounds the code of the value at the exponent of its
    magnitude. *)
Lemma binary_round_K s m e :
  binary_round prec emax s m e =
  finish s (rne (kcode (Z.pos m) e (fexp64 (digits (Z.pos m) + e))))
         (fexp64 (digits (Z.pos m) + e)).
Proof.
  unfold binary_round. change (Z.pos (digits2_pos m)) with (digits (Z.pos m)).
  change (fexp prec emax (digits (Z.pos m) + e)) with (fexp64 (digits (Z.pos m) + e)).
  set (E := fexp64 (digits (Z.pos m) + e)).
  destruct (shl_align_spec m e E) as [Hez Hmz].
  destruct (shl_align m e E) as [mz ez]. cbn [fst snd] in Hez, Hmz.
  cbv iota beta. rewrite bra_finish.
  assert (Hd : digits (Z.pos mz) + ez = digits (Z.pos m) + e).
  { rewrite Hmz, digits_shift by lia. lia. }
  destruct (stage1 (Z.pos mz) ez loc_Exact ltac:(lia)) as (mrs' & e' & Hs & Hp & He' & Hc).
  rewrite Hs. rewrite (round_nearest_even_rne _ Hp), Hc, He'.
  rewrite Hd. change (fexp prec emax (digits (Z.pos m) + e)) with E.
  cbn [locc]. rewrite Z.add_0_r.
  replace (Z.max ez E) with E by lia.
  f_equal. f_equal. unfold kcode. destruct (E <=? e) eqn:L.
  - apply Z.leb_le in L. replace ez with E by lia. rewrite Z.sub_diag.
    change (Z.to_nat 0) with 0%nat. change (ssn 0 (4 * Z.pos mz)) with (4 * Z.pos mz).
    rewrite Hmz. replace (Z.min e E) with E by lia. reflexivity.
  - apply Z.leb_gt in L. replace ez with e in * by lia.
    rewrite Hmz. replace (Z.min e E) with e by lia.
    rewrite Z.sub_diag, Z.pow_0_r, Z.mul_1_r. reflexivity.
Qed.

Lemma K_scale m e E k :
  0 <= k -> kcode (m * 2 ^ k) (e - k) E = kcode m e E.
Proof.
  intros Hk. unfold kcode.
  destruct (E <=? e - k) eqn:L1; destruct (E <=? e) eqn:L2.
  - apply Z.leb_le in L1, L2. f_equal.
    replace (e - E) with (k + (e - k - E)) by lia.
    rewrite pow2_split by lia. ring.
  - apply Z.leb_le in L1. apply Z.leb_gt in L2. lia.
  - apply Z.leb_gt in L1. apply Z.leb_le in L2.
    (* e - k < E <= e *)
    replace (2 ^ k) with (2 ^ (e - E) * 2 ^ Z.of_nat (Z.to_nat (E - (e - k)))).
    2:{ rewrite Z2Nat.id by lia. rewrite <- pow2_split by lia. f_equal. lia. }
    replace (4 * (m * (2 ^ (e - E) * 2 ^ Z.of_nat (Z.to_nat (E - (e - k))))))
      with (4 * ((m * 2 ^ (e - E)) * 2 ^ Z.of_nat (Z.to_nat (E - (e - k))))) by ring.
    apply ssn_pow.
  - apply Z.leb_gt in L1, L2.
    replace (Z.to_nat (E - (e - k))) with (Z.to_nat (E - e) + Z.to_nat k)%nat by lia.
    rewrite ssn_add.
    replace (2 ^ k) with (2 ^ Z.of_nat (Z.to_nat k)) by (rewrite Z2Nat.id by lia; reflexivity).
    rewrite ssn_pow. reflexivity.
Qed.

Lemma K_mono m1 m2 e E : 0 <= m1 <= m2 -> kcode m1 e E <= kcode m2 e E.
Proof.
  intros H. unfold kcode. destruct (E <=? e) eqn:L.
  - apply Z.leb_le in L. pose proof (pow2_pos (e - E) ltac:(lia)). nia.
  - apply ssn_mono. lia.
Qed.

Lemma K_quarter m e E :
  0 <= m ->
  kcode m e E / 4 = if E <=? e then m * 2 ^ (e - E) else m / 2 ^ (E - e).
Proof.
  intros H. unfold kcode. destruct (E <=? e) eqn:L.
  - rewrite Z.mul_comm, Z.div_mul by lia. reflexivity.
  - apply Z.leb_gt in L. rewrite ssn_quarter by lia.
    rewrite Z2Nat.id by lia. rewrite Z.mul_comm, Z.div_mul by lia. reflexivity.
Qed.

(** ** Rounding is monotone *)

Lemma fexp64_mono d1 d2 : d1 <= d2 -> fexp64 d1 <= fexp64 d2.
Proof. unfold fexp64. lia. Qed.

Lemma quarter_upper m e E :
  0 < m -> kcode m e E / 4 + 1 <= 2 ^ Z.max (digits m + e - E) 0.
Proof.
  intros H. rewrite K_quarter by lia.
  destruct (digits_bounds m H) as [Hlo Hhi].
  pose proof (digits_pos m H) as Hd.
  destruct (E <=? e) eqn:L.
  - apply Z.leb_le in L.
    replace (Z.max (digits m + e - E) 0) with (digits m + (e - E)) by lia.
    rewrite pow2_split by lia.
    pose proof (pow2_pos (e - E) ltac:(lia)). nia.
  - apply Z.leb_gt in L.
    destruct (Z_le_gt_dec (E - e) (digits m)) as [Hn|Hn].
    + replace (Z.max (digits m + e - E) 0) with (digits m - (E - e)) by lia.
      assert (m / 2 ^ (E - e) < 2 ^ (digits m - (E - e))); [|lia].
      apply Z.div_lt_upper_bound; [apply pow2_pos; lia|].
      rewrite <- pow2_split by lia.
      replace (E - e + (digits m - (E - e))) with (digits m) by lia. exact Hhi.
    + replace (Z.max (digits m + e - E) 0) with 0 by lia.
      rewrite Z.div_small; [cbn; lia|].
      pose proof (pow2_le (digits m) (E - e) ltac:(lia)). lia.
Qed.

Lemma quarter_lower m e E :
  0 < m -> 0 <= digits m + e - E - 1 ->
  2 ^ (digits m + e - E - 1) <= kcode m e E / 4.
Proof.
  intros H Hn. rewrite K_quarter by lia.
  destruct (digits_bounds m H) as [Hlo Hhi].
  pose proof (digits_pos m H) as Hd.
  destruct (E <=? e) eqn:L.
  - apply Z.leb_le in L.
    replace (digits m + e - E - 1) with ((digits m - 1) + (e - E)) by lia.
    rewrite pow2_split by lia.
    pose proof (pow2_pos (e - E) ltac:(lia)). nia.
  - apply Z.leb_gt in L.
    apply Z.div_le_lower_bound; [apply pow2_pos; lia|].
    rewrite <- pow2_split by lia.
    replace (E - e + (digits m + e - E - 1)) with (digits m - 1) by lia. exact Hlo.
Qed.

(** The rounded mantissa stays between the powers of two that bracket the
    value. *)
Lemma rounded_pair m e :
  0 < m ->
  let D := digits m + e in
  let E := fexp64 D in
  let M := rne (kcode m e E) in
  rounded M E /\
  M * 2 ^ (E + 1074) <= 2 ^ (Z.max D E + 1074) /\
  (-1074 < E -> 2 ^ (D - 1 + 1074) <= M * 2 ^ (E + 1074)).
Proof.
  intros H D E M.
  assert (HE : -1074 <= E /\ D - 53 <= E) by (unfold E, fexp64; lia).
  pose proof (K_nonneg m e E ltac:(lia)) as Kp.
  pose proof (rne_bounds _ Kp) as Hb. fold M in Hb.
  pose proof (quarter_upper m e E H) as Hu. fold D in Hu.
  assert (Kq : 0 <= kcode m e E / 4) by (apply Z.div_pos; lia).
  assert (Hlow : -1074 < E -> 2 ^ 52 <= kcode m e E / 4).
  { intros HE1. assert (E = D - 53) by (unfold E, fexp64 in *; lia).
    pose proof (quarter_lower m e E H) as Hl. fold D in Hl.
    replace (D - E - 1) with 52 in Hl by lia. apply Hl. lia. }
  assert (Hup : M <= 2 ^ Z.max (D - E) 0) by lia.
  split; [|split].
  - unfold rounded. split; [lia|]. split; [|intros HE1; specialize (Hlow HE1); lia].
    split; [lia|].
    pose proof (pow2_le (Z.max (D - E) 0) 53 ltac:(lia)). lia.
  - replace (Z.max D E + 1074) with (Z.max (D - E) 0 + (E + 1074)) by lia.
    rewrite (pow2_split (Z.max (D - E) 0) (E + 1074)) by lia.
    pose proof (pow2_pos (E + 1074) ltac:(lia)). nia.
  - intros HE1. specialize (Hlow HE1).
    assert (E = D - 53) by (unfold E, fexp64 in *; lia).
    replace (D - 1 + 1074) with (52 + (E + 1074)) by lia.
    rewrite (pow2_split 52 (E + 1074)) by lia.
    pose proof (pow2_pos (E + 1074) ltac:(lia)). nia.
Qed.

(** Rounding to nearest even is monotone in the value rounded. *)
Lemma binary_round_mono m1 e1 m2 e2 :
  Z.pos m1 * 2 ^ (e1 - Z.min e1 e2) <= Z.pos m2 * 2 ^ (e2 - Z.min e1 e2) ->
  SFleb (binary_round prec emax false m1 e1) (binary_round prec emax false m2 e2)
  = true.
Proof.
  intros Hv. rewrite !binary_round_K.
  set (e0 := Z.min e1 e2) in *.
  set (a1 := Z.pos m1 * 2 ^ (e1 - e0)) in *.
  set (a2 := Z.pos m2 * 2 ^ (e2 - e0)) in *.
  assert (Pa1 : 0 < a1) by (unfold a1; pose proof (pow2_pos (e1 - e0) ltac:(lia)); nia).
  assert (Hd1 : digits (Z.pos m1) + e1 = digits a1 + e0)
    by (unfold a1; rewrite digits_shift by lia; lia).
  assert (Hd2 : digits (Z.pos m2) + e2 = digits a2 + e0)
    by (unfold a2; rewrite digits_shift by lia; lia).
  assert (HK1 : forall E, kcode (Z.pos m1) e1 E = kcode a1 e0 E).
  { intros E. unfold a1. rewrite <- (K_scale (Z.pos m1) e1 E (e1 - e0)) by lia.
    f_equal. lia. }
  assert (HK2 : forall E, kcode (Z.pos m2) e2 E = kcode a2 e0 E).
  { intros E. unfold a2. rewrite <- (K_scale (Z.pos m2) e2 E (e2 - e0)) by lia.
    f_equal. lia. }
  rewrite Hd1, Hd2, HK1, HK2.
  pose proof (digits_le a1 a2 Pa1 Hv) as Hdig.
  destruct (rounded_pair a1 e0 Pa1) as (R1 & U1 & L1).
  destruct (rounded_pair a2 e0 ltac:(lia)) as (R2 & U2 & L2).
  set (D1 := digits a1 + e0) in *. set (D2 := digits a2 + e0) in *.
  set (E1 := fexp64 D1) in *. set (E2 := fexp64 D2) in *.
  set (M1 := rne (kcode a1 e0 E1)) in *. set (M2 := rne (kcode a2 e0 E2)) in *.
  destruct (finish_rounded false M1 E1 R1) as (F1 & C1 & V1).
  destruct (finish_rounded false M2 E2 R2) as (F2 & C2 & V2).
  rewrite F1, F2. apply encode_le; [exact C1|exact C2|].
  rewrite V1, V2.
  assert (HE : E1 <= E2) by (apply fexp64_mono; lia).
  destruct (Z.eq_dec E1 E2) as [Heq|Hne].
  - assert (M1 <= M2).
    { unfold M1, M2. rewrite <- Heq. apply rne_mono, K_mono. lia. }
    rewrite <- Heq. destruct R1 as (He1 & _).
    pose proof (pow2_pos (E1 + 1074) ltac:(lia)). nia.
  - assert (HE2 : -1074 < E2) by (destruct R1; lia).
    specialize (L2 HE2).
    assert (D1 < D2).
    { destruct (Z_lt_ge_dec D1 D2) as [Hlt|Hge]; [exact Hlt|].
      pose proof (fexp64_mono D2 D1 ltac:(lia)). fold E1 E2 in H. lia. }
    assert (E2 = D2 - 53) by (unfold E2, fexp64 in *; lia).
    pose proof (pow2_le (Z.max D1 E1 + 1074) (D2 - 1 + 1074)) as Hp.
    destruct R1 as (He1 & _).
    specialize (Hp ltac:(lia)). lia.
Qed.

(** ** Adding to a non-negative double is monotone *)

Lemma valid_canon m e :
  valid_binary (S754_finite false m e) = true ->
  canon (Z.pos m) e /\ e <= 971 /\ fexp64 (digits (Z.pos m) + e) = e.
Proof.
  cbn [valid_binary]. unfold bounded, canonical_mantissa.
  change (Z.pos (digits2_pos m)) with (digits (Z.pos m)).
  change (fexp prec emax (digits (Z.pos m) + e)) with (fexp64 (digits (Z.pos m) + e)).
  intros H. apply andb_true_iff in H. destruct H as [Hc Hb].
  apply Z.eqb_eq in Hc. apply Z.leb_le in Hb. change (emax - prec) with 971 in Hb.
  split; [|split; assumption].
  pose proof (digits_bounds (Z.pos m) ltac:(lia)) as [Hlo Hhi].
  pose proof (digits_pos (Z.pos m) ltac:(lia)) as Hd.
  unfold fexp64 in Hc. unfold canon.
  split; [lia|]. split.
  - split; [lia|]. pose proof (pow2_le (digits (Z.pos m)) 53 ltac:(lia)). lia.
  - intros He. assert (digits (Z.pos m) = 53) by lia.
    rewrite H in Hlo. exact Hlo.
Qed.

Lemma encode_nonneg m e : 0 <= m -> nonneg (encode false m e).
Proof.
  intros H. unfold encode. destruct m; try lia; cbn; auto.
  destruct (e <=? 971); reflexivity.
Qed.

Lemma binary_round_encode m e :
  exists M E, binary_round prec emax false m e = encode false M E /\ canon M E.
Proof.
  rewrite binary_round_K.
  destruct (rounded_pair (Z.pos m) e ltac:(lia)) as (R & _).
  destruct (finish_rounded false _ _ R) as (F & C & _).
  eexists. eexists. split; [exact F|exact C].
Qed.

Lemma binary_round_nonneg m e : nonneg (binary_round prec emax false m e).
Proof.
  destruct (binary_round_encode m e) as (M & E & -> & C).
  apply encode_nonneg. destruct C as (_ & ? & _). lia.
Qed.

Lemma binary_round_valid m e :
  valid_binary (S754_finite false m e) = true ->
  binary_round prec emax false m e = S754_finite false m e.
Proof.
  intros V. destruct (valid_canon m e V) as (C & He & Hf).
  rewrite binary_round_K, Hf. unfold kcode. rewrite Z.leb_refl, Z.sub_diag.
  change (2 ^ 0) with 1. rewrite Z.mul_1_r, rne_exact.
  rewrite (finish_canon _ _ _ C). unfold encode.
  replace (e <=? 971) with true by (symmetry; apply Z.leb_le; exact He).
  reflexivity.
Qed.

Lemma SFleb_value m1 e1 m2 e2 :
  valid_binary (S754_finite false m1 e1) = true ->
  valid_binary (S754_finite false m2 e2) = true ->
  SFleb (S754_finite false m1 e1) (S754_finite false m2 e2) = true ->
  Z.pos m1 * 2 ^ (e1 - Z.min e1 e2) <= Z.pos m2 * 2 ^ (e2 - Z.min e1 e2).
Proof.
  intros V1 V2. destruct (valid_canon _ _ V1) as ((He1 & Hm1 & Hn1) & _).
  destruct (valid_canon _ _ V2) as ((He2 & Hm2 & Hn2) & _).
  unfold SFleb, SFcompare.
  destruct (Z.compare_spec e1 e2) as [Heq|Hlt|Hgt]; [| |discriminate].
  - subst e2. rewrite Pos.compare_cont_spec. cbn [Pos.switch_Eq].
    destruct (Pos.compare_spec m1 m2) as [H|H|H]; try discriminate; intros _;
      replace (Z.min e1 e1) with e1 by lia; rewrite Z.sub_diag; lia.
  - intros _. replace (Z.min e1 e2) with e1 by lia. rewrite Z.sub_diag.
    change (2 ^ 0) with 1. specialize (Hn2 ltac:(lia)).
    pose proof (pow2_le 1 (e2 - e1) ltac:(lia)) as Q. change (2 ^ 1) with 2 in Q.
    change (2 ^ 52) with 4503599627370496 in *.
    change (2 ^ 53) with 9007199254740992 in *. nia.
Qed.

Lemma SFleb_refl_finite m e :
  SFleb (S754_finite false m e) (S754_finite false m e) = true.
Proof.
  unfold SFleb, SFcompare. rewrite Z.compare_refl, Pos.compare_cont_spec.
  cbn [Pos.switch_Eq]. rewrite Pos.compare_refl. reflexivity.
Qed.

Lemma SFleb_inf x : nonneg x -> SFleb x (S754_infinity false) = true.
Proof. destruct x as [s|s| |s m e]; cbn; intros H; subst; try reflexivity; contradiction. Qed.

Lemma SFleb_zero s x : nonneg x -> SFleb (S754_zero s) x = true.
Proof. destruct x as [s'|s'| |s' m e]; cbn; intros H; subst; try reflexivity; contradiction. Qed.

Lemma SFadd_finite mx ex my ey :
  exists p,
    SFadd prec emax (S754_finite false mx ex) (S754_finite false my ey) =
      binary_round prec emax false p (Z.min ex ey) /\
    Z.pos p = Z.pos mx * 2 ^ (ex - Z.min ex ey) + Z.pos my * 2 ^ (ey - Z.min ex ey).
Proof.
  cbn [SFadd cond_Zopp].
  destruct (shl_align_spec mx ex (Z.min ex ey)) as [_ H1].
  destruct (shl_align_spec my ey (Z.min ex ey)) as [_ H2].
  replace (Z.min ex (Z.min ex ey)) with (Z.min ex ey) in H1 by lia.
  replace (Z.min ey (Z.min ex ey)) with (Z.min ex ey) in H2 by lia.
  rewrite <- H1, <- H2.
  exists (fst (shl_align mx ex (Z.min ex ey)) + fst (shl_align my ey (Z.min ex ey)))%positive.
  split; reflexivity.
Qed.

(** A sum of non-negative doubles is non-negative (and not a NaN). *)
Lemma SFadd_nonneg c x :
  nonneg c -> nonneg x -> nonneg (SFadd prec emax c x).
Proof.
  destruct c as [sc|sc| |sc mc ec], x as [sx|sx| |sx mx ex];
    cbn [nonneg]; intros Hc Hx; subst; try contradiction;
    try (cbn; auto; fail).
  - destruct sc, sx; cbn; auto.
  - destruct (SFadd_finite mc ec mx ex) as (p & -> & _).
    apply binary_round_nonneg.
Qed.

(** Adding to a non-negative double is monotone. *)
Lemma SFadd_mono c x y :
  valid_binary c = true ->
  valid_binary x = true ->
  valid_binary y = true ->
  nonneg c -> nonneg x -> SFleb x y = true ->
  SFleb (SFadd prec emax c x) (SFadd prec emax c y) = true.
Proof.
  intros Vc Vx Vy Hc Hx Hxy.
  assert (Hy : nonneg y).
  { destruct x as [sx|sx| |sx mx ex], y as [sy|sy| |sy my ey];
      cbn [nonneg] in *; subst; try contradiction; auto; try discriminate;
      destruct sy; first [discriminate|reflexivity]. }
  destruct c as [sc|sc| |sc mc ec]; cbn [nonneg] in Hc; subst; try contradiction.
  - (* c is a zero *)
    destruct x as [sx|sx| |sx mx ex], y as [sy|sy| |sy my ey];
      cbn [nonneg] in *; subst; try contradiction; try discriminate;
      try exact Hxy; try reflexivity.
    all: destruct sc, sx; try destruct sy; reflexivity.
  - (* c is the infinity *)
    destruct x as [sx|sx| |sx mx ex], y as [sy|sy| |sy my ey];
      cbn [nonneg] in *; subst; try contradiction; reflexivity.
  - (* c is finite *)
    destruct x as [sx|sx| |sx mx ex], y as [sy|sy| |sy my ey];
      cbn [nonneg] in *; subst; try contradiction; try discriminate;
      try reflexivity.
    + apply SFleb_refl_finite.
    + (* x zero, y finite *)
      destruct (SFadd_finite mc ec my ey) as (p & -> & Hp).
      change (SFadd prec emax (S754_finite false mc ec) (S754_zero sx))
        with (S754_finite false mc ec).
      rewrite <- (binary_round_valid mc ec Vc).
      apply binary_round_mono. rewrite Hp.
      replace (Z.min ec (Z.min ec ey)) with (Z.min ec ey) by lia.
      replace (Z.min ec ey - Z.min ec ey) with 0 by lia.
      change (2 ^ 0) with 1.
      pose proof (pow2_pos (ey - Z.min ec ey) ltac:(lia)). nia.
    + (* x finite, y infinite *)
      destruct (SFadd_finite mc ec mx ex) as (p & -> & _).
      apply SFleb_inf, binary_round_nonneg.
    + (* x finite, y finite *)
      destruct (SFadd_finite mc ec mx ex) as (p & -> & Hp).
      destruct (SFadd_finite mc ec my ey) as (q & -> & Hq).
      apply binary_round_mono. rewrite Hp, Hq.
      pose proof (SFleb_value _ _ _ _ Vx Vy Hxy) as Hv.
      set (e1 := Z.min ec ex) in *. set (e2 := Z.min ec ey) in *.
      set (e0 := Z.min e1 e2) in *. set (exy := Z.min ex ey) in *.
      (* bring everything to the exponent [e0] *)
      assert (S1 : forall m a b, b <= a -> e0 <= b ->
                m * 2 ^ (a - b) * 2 ^ (b - e0) = m * 2 ^ (a - e0)).
      { intros m a b H1 H2. rewrite <- Z.mul_assoc, <- pow2_split by lia.
        f_equal. f_equal. lia. }
      rewrite !Z.mul_add_distr_r.
      rewrite !S1 by lia.
      assert (Z.pos mx * 2 ^ (ex - e0) <= Z.pos my * 2 ^ (ey - e0)); [|lia].
      rewrite <- (S1 (Z.pos mx) ex exy), <- (S1 (Z.pos my) ey exy) by lia.
      apply Z.mul_le_mono_nonneg_r; [|exact Hv].
      pose proof (pow2_pos (exy - e0) ltac:(lia)). lia.
Qed.

(** ** Results in the normal range *)

Lemma finish_nonneg M e : 0 <= M -> nonneg (finish false M e).
Proof.
  intros H. unfold finish.
  destruct (stage1 M e loc_Exact H) as (mrs & e' & Hs & Hp & _). rewrite Hs.
  destruct (shr_m mrs); try lia; cbn; auto.
  destruct (_ <=? _); cbn; reflexivity.
Qed.

Lemma rne_nonneg c : 0 <= c -> 0 <= rne c.
Proof. intros H. pose proof (rne_bounds c H). assert (0 <= c / 4) by (apply Z.div_pos; lia). lia. Qed.

Lemma ssn_nonneg n : forall c, 0 <= c -> 0 <= ssn n c.
Proof.
  induction n as [|n IH]; intros c Hc; [exact Hc|].
  rewrite ssn_S. apply sshift_nonneg, IH, Hc.
Qed.

Lemma locc_range l : 0 <= locc l <= 3.
Proof. destruct l as [|[ | | ]]; cbn; lia. Qed.

Lemma bra_nonneg m e l : 0 <= m -> nonneg (binary_round_aux prec emax false m e l).
Proof.
  intros H. rewrite bra_finish.
  destruct (stage1 m e l H) as (mrs & e' & Hs & Hp & _ & Hc). rewrite Hs.
  apply finish_nonneg. rewrite (round_nearest_even_rne _ Hp), Hc.
  apply rne_nonneg, ssn_nonneg. pose proof (locc_range l). lia.
Qed.

(** rounding a mantissa of at least 53 digits in the normal range *)
Lemma bra_normal m e l :
  0 < m -> 53 <= digits m ->
  -1021 <= digits m + e <= 1023 ->
  normal (binary_round_aux prec emax false m e l) (digits m + e) (digits m + e + 1).
Proof.
  intros Hm Hd HD. rewrite bra_finish.
  destruct (stage1 m e l ltac:(lia)) as (mrs & e' & Hs & Hp & He' & Hc). rewrite Hs.
  change (fexp prec emax (digits m + e)) with (fexp64 (digits m + e)) in *.
  set (D := digits m + e) in *.
  assert (HE : fexp64 D = D - 53) by (unfold fexp64; lia).
  rewrite HE in *. replace (Z.max e (D - 53)) with (D - 53) in He' by lia. subst e'.
  rewrite (round_nearest_even_rne _ Hp), Hc.
  set (n := D - 53 - e) in *.
  set (C := ssn (Z.to_nat n) (4 * m + locc l)).
  pose proof (locc_range l) as Hl.
  assert (HC : 0 <= C) by (apply ssn_nonneg; lia).
  assert (Hq : C / 4 = m / 2 ^ n).
  { unfold C. rewrite ssn_quarter by lia. rewrite Z2Nat.id by (unfold n, D; lia).
    f_equal. Z.to_euclidean_division_equations; lia. }
  destruct (digits_bounds m Hm) as [Hlo Hhi].
  assert (Hn : 0 <= n) by (unfold n, D; lia).
  assert (Ht : 2 ^ 52 <= m / 2 ^ n < 2 ^ 53).
  { split.
    - apply Z.div_le_lower_bound; [apply pow2_pos; lia|].
      rewrite <- pow2_split by lia.
      replace (n + 52) with (digits m - 1) by (unfold n, D; lia). exact Hlo.
    - apply Z.div_lt_upper_bound; [apply pow2_pos; lia|].
      rewrite <- pow2_split by lia.
      replace (n + 53) with (digits m) by (unfold n, D; lia). exact Hhi. }
  pose proof (rne_bounds C HC) as Hb. rewrite Hq in Hb.
  assert (R : rounded (rne C) (D - 53)) by (unfold rounded; lia).
  destruct (finish_rounded false _ _ R) as (F & (Ce & Cm & Cn) & _).
  rewrite F. unfold renorm in *.
  destruct (rne C =? 2 ^ 53) eqn:Etop; cbn [fst snd] in *.
  - unfold encode. change (2 ^ 52) with (Z.pos (2 ^ 52)).
    replace (D - 53 + 1 <=? 971) with true by (symmetry; apply Z.leb_le; lia).
    eexists. eexists. split; [reflexivity|]. split; [reflexivity|lia].
  - apply Z.eqb_neq in Etop.
    assert (Hr : 2 ^ 52 <= rne C < 2 ^ 53) by lia.
    unfold encode. destruct (rne C) as [|p|p] eqn:Ep; try lia.
    replace (D - 53 <=? 971) with true by (symmetry; apply Z.leb_le; lia).
    eexists. eexists. split; [reflexivity|].
    split; [apply digits_unique; lia|lia].
Qed.

Lemma binary_round_normal p e :
  -1020 <= digits (Z.pos p) + e <= 1023 ->
  normal (binary_round prec emax false p e)
         (digits (Z.pos p) + e) (digits (Z.pos p) + e + 1).
Proof.
  intros HD. rewrite binary_round_K.
  destruct (rounded_pair (Z.pos p) e ltac:(lia)) as (R & _ & _).
  set (D := digits (Z.pos p) + e) in *.
  assert (HE : fexp64 D = D - 53) by (unfold fexp64; lia).
  rewrite HE in *.
  set (M := rne (kcode (Z.pos p) e (D - 53))) in *.
  destruct (finish_rounded false _ _ R) as (F & (Ce & Cm & Cn) & _).
  destruct R as (_ & RM & Rn). clearbody M. clearbody D. assert (Hx : -1074 < D - 53) by lia. specialize (Rn Hx).
  rewrite F. unfold renorm in *.
  destruct (M =? 2 ^ 53) eqn:Etop; cbn [fst snd] in *.
  - unfold encode. change (2 ^ 52) with (Z.pos (2 ^ 52)).
    replace (D - 53 + 1 <=? 971) with true by (symmetry; apply Z.leb_le; lia).
    eexists. eexists. split; [reflexivity|]. split; [reflexivity|lia].
  - apply Z.eqb_neq in Etop.
    unfold encode. destruct M as [|q|q] eqn:Ep; try lia.
    replace (D - 53 <=? 971) with true by (symmetry; apply Z.leb_le; lia).
      eexists. eexists. split; [reflexivity|].
      split; [apply digits_unique; lia|lia].
Qed.

Lemma normal_weaken x a b a' b' :
  normal x a b -> a' <= a -> b <= b' -> normal x a' b'.
Proof.
  intros (m & e & E & D & R) Ha Hb. exists m, e. repeat split; try assumption; lia.
Qed.

Lemma normal_nonneg x a b : normal x a b -> nonneg x.
Proof. intros (m & e & -> & _). reflexivity. Qed.

Lemma digits_53 p : digits (Z.pos p) = 53 -> 2 ^ 52 <= Z.pos p < 2 ^ 53.
Proof.
  intros D. pose proof (digits_bounds (Z.pos p) ltac:(lia)) as B.
  rewrite D in B. exact B.
Qed.

Lemma SFdiv_normal x y a b c d :
  normal x a b -> normal y c d -> -900 <= a - d -> b - c <= 900 ->
  normal (SFdiv prec emax x y) (a - d) (b - c + 2).
Proof.
  intros (mx & ex & -> & Dx & Rx) (my & ey & -> & Dy & Ry) Hlo Hhi.
  cbn [SFdiv xorb]. unfold SFdiv_core_binary.
  change (Zdigits2 (Z.pos mx)) with (digits (Z.pos mx)).
  change (Zdigits2 (Z.pos my)) with (digits (Z.pos my)).
  rewrite Dx, Dy, fexp_eq.
  replace (Z.min (Z.max (53 + ex - (53 + ey) - 53) (-1074)) (ex - ey))
    with (ex - ey - 53) by lia.
  replace (ex - ey - (ex - ey - 53)) with 53 by lia.
  cbv iota beta zeta.
  rewrite Z.shiftl_mul_pow2 by lia.
  pose proof (digits_53 _ Dx) as Bx. pose proof (digits_53 _ Dy) as By.
  change (2 ^ 52) with 4503599627370496 in *.
  change (2 ^ 53) with 9007199254740992 in *.
  assert (Hq : Z.div_eucl (Z.pos mx * 9007199254740992) (Z.pos my) =
               (Z.pos mx * 9007199254740992 / Z.pos my,
                Z.pos mx * 9007199254740992 mod Z.pos my)).
  { unfold Z.div, Z.modulo. destruct (Z.div_eucl _ _). reflexivity. }
  rewrite Hq. set (q := Z.pos mx * 9007199254740992 / Z.pos my).
  assert (Bq : 2 ^ 52 <= q < 2 ^ 54).
  { change (2 ^ 52) with 4503599627370496. change (2 ^ 54) with 18014398509481984.
    unfold q. split.
    - apply Z.div_le_lower_bound; lia.
    - apply Z.div_lt_upper_bound; lia. }
  assert (Dq : 53 <= digits q <= 54).
  { split.
    - assert (52 < digits q) by (apply digits_ge_pow; lia). lia.
    - apply digits_lt_pow; try lia. }
  assert (Pq : 0 < q) by (change (2 ^ 52) with 4503599627370496 in Bq; lia).
  refine (normal_weaken _ _ _ _ _ (bra_normal q (ex - ey - 53) _ Pq _ _) _ _); lia.
Qed.

Lemma SFmul_normal x y a b c d :
  normal x a b -> normal y c d -> -900 <= a + c -> b + d <= 900 ->
  normal (SFmul prec emax x y) (a + c - 1) (b + d + 1).
Proof.
  intros (mx & ex & -> & Dx & Rx) (my & ey & -> & Dy & Ry) Hlo Hhi.
  cbn [SFmul xorb].
  pose proof (digits_53 _ Dx) as Bx. pose proof (digits_53 _ Dy) as By.
  change (2 ^ 52) with 4503599627370496 in *.
  change (2 ^ 53) with 9007199254740992 in *.
  rewrite Pos2Z.inj_mul.
  set (q := Z.pos mx * Z.pos my).
  assert (Bq : 2 ^ 104 <= q < 2 ^ 106).
  { change (2 ^ 104) with (4503599627370496 * 4503599627370496).
    change (2 ^ 106) with (9007199254740992 * 9007199254740992).
    unfold q. nia. }
  assert (Pq : 0 < q) by (unfold q; lia).
  assert (Dq : 105 <= digits q <= 106).
  { split.
    - assert (104 < digits q) by (apply digits_ge_pow; lia). lia.
    - apply digits_lt_pow; lia. }
  refine (normal_weaken _ _ _ _ _ (bra_normal q (ex + ey) _ Pq _ _) _ _); lia.
Qed.

Lemma SFadd_normal x y a b :
  normal x a b -> normal y a b -> -900 <= a -> b <= 900 ->
  normal (SFadd prec emax x y) a (b + 2).
Proof.
  intros (mx & ex & -> & Dx & Rx) (my & ey & -> & Dy & Ry) Hlo Hhi.
  destruct (SFadd_finite mx ex my ey) as (p & -> & Hp).
  pose proof (digits_53 _ Dx) as Bx. pose proof (digits_53 _ Dy) as By.
  set (z := Z.min ex ey) in *.
  assert (Hx : digits (Z.pos mx * 2 ^ (ex - z)) = 53 + (ex - z))
    by (rewrite digits_shift by lia; lia).
  assert (Hy : digits (Z.pos my * 2 ^ (ey - z)) = 53 + (ey - z))
    by (rewrite digits_shift by lia; lia).
  assert (Px : 0 < Z.pos mx * 2 ^ (ex - z))
    by (apply Z.mul_pos_pos; [lia|apply pow2_pos; lia]).
  assert (Py : 0 < Z.pos my * 2 ^ (ey - z))
    by (apply Z.mul_pos_pos; [lia|apply pow2_pos; lia]).
  pose proof (digits_le _ (Z.pos p) Px ltac:(lia)) as L1.
  pose proof (digits_le _ (Z.pos p) Py ltac:(lia)) as L2.
  pose proof (digits_bounds _ Px) as U1. pose proof (digits_bounds _ Py) as U2.
  rewrite Hx in U1. rewrite Hy in U2.
  set (t := Z.max ex ey - z).
  assert (Ht : 0 <= t) by (unfold t, z; lia).
  assert (M1 : 2 ^ (53 + (ex - z)) <= 2 ^ (53 + t))
    by (apply pow2_le; unfold t; lia).
  assert (M2 : 2 ^ (53 + (ey - z)) <= 2 ^ (53 + t))
    by (apply pow2_le; unfold t; lia).
  assert (U : Z.pos p < 2 ^ (54 + t)).
  { replace (54 + t) with (1 + (53 + t)) by lia.
    rewrite Z.pow_add_r by lia. change (2 ^ 1) with 2. lia. }
  assert (Dp : digits (Z.pos p) <= 54 + t) by (apply digits_lt_pow; lia).
  refine (normal_weaken _ _ _ _ _ (binary_round_normal p z _) _ _);
    unfold t, z in *; lia.
Qed.

Lemma binary_normalize_small z :
  0 <= z < 2 ^ 63 ->
  binary_normalize prec emax z 0 false = S754_zero false \/
  normal (binary_normalize prec emax z 0 false) 1 64.
Proof.
  intros H. destruct z as [|p|p]; [left; reflexivity| |lia]. right.
  cbn [binary_normalize].
  assert (D : 1 <= digits (Z.pos p) <= 63).
  { split; [pose proof (digits_pos (Z.pos p)); lia|apply digits_lt_pow; lia]. }
  refine (normal_weaken _ _ _ _ _ (binary_round_normal p 0 _) _ _); lia.
Qed.

(** ** The scores of single characters are not below zero *)

Lemma big_nonneg x : big x -> nonneg x.
Proof. intros [->|H]; [reflexivity|exact (normal_nonneg _ _ _ H)]. Qed.

Lemma normal_const (x : float) m e :
  Prim2SF x = S754_finite false m e ->
  digits (Z.pos m) = 53 ->
  normal (Prim2SF x) (53 + e) (53 + e).
Proof. intros E D. exists m, e. repeat split; try assumption; lia. Qed.

Lemma normal_one : normal (Prim2SF 1) 1 1.
Proof. apply (normal_const 1 4503599627370496 (-52)); reflexivity. Qed.

Lemma normal_two : normal (Prim2SF 2) 2 2.
Proof. apply (normal_const 2 4503599627370496 (-51)); reflexivity. Qed.

Lemma double_of_long_class z :
  Prim2SF (double_of_long z) = S754_zero false \/
  normal (Prim2SF (double_of_long z)) 1 64.
Proof.
  unfold double_of_long. rewrite FloatAxioms.of_uint63_spec.
  apply binary_normalize_small.
  pose proof (Uint63.to_Z_bounded (Uint63.of_Z z)) as B.
  change wB with (2 ^ 63) in B. exact B.
Qed.

Lemma recip_class z :
  Prim2SF (1 / double_of_long z) = S754_infinity false \/
  normal (Prim2SF (1 / double_of_long z)) (-63) 2.
Proof.
  rewrite FloatAxioms.div_spec.
  destruct (double_of_long_class z) as [E|N].
  - left. rewrite E. reflexivity.
  - right. exact (SFdiv_normal _ _ 1 1 1 64 normal_one N ltac:(lia) ltac:(lia)).
Qed.

(** Line 139: [max_score_per_char] is above zero. *)
Lemma max_score_per_char_big hl nl :
  big (Prim2SF ((1 / double_of_long hl + 1 / double_of_long nl) / 2)).
Proof.
  rewrite FloatAxioms.div_spec, FloatAxioms.add_spec.
  destruct (recip_class hl) as [Ea|Na], (recip_class nl) as [Eb|Nb].
  - left. rewrite Ea, Eb. reflexivity.
  - left. rewrite Ea. destruct Nb as (m & e & -> & _). reflexivity.
  - left. rewrite Eb. destruct Na as (m & e & -> & _). reflexivity.
  - right.
    pose proof (SFadd_normal _ _ (-63) 2 Na Nb ltac:(lia) ltac:(lia)) as S.
    refine (normal_weaken _ _ _ _ _
              (SFdiv_normal _ _ _ _ 2 2 S normal_two _ _) _ _); lia.
Qed.

(** Lines 78-104: every factor is above zero. *)
Lemma factor_of_big last curr distance :
  big (Prim2SF (factor_of last curr distance)).
Proof.
  unfold factor_of.
  assert (C9 : big (Prim2SF 0.9)).
  { right. refine (normal_weaken _ _ _ _ _
      (normal_const 0.9 8106479329266893 (-53) _ _) _ _); try reflexivity; lia. }
  assert (C8 : big (Prim2SF 0.8)).
  { right. refine (normal_weaken _ _ _ _ _
      (normal_const 0.8 7205759403792794 (-53) _ _) _ _); try reflexivity; lia. }
  assert (C7 : big (Prim2SF 0.7)).
  { right. refine (normal_weaken _ _ _ _ _
      (normal_const 0.7 6305039478318694 (-53) _ _) _ _); try reflexivity; lia. }
  assert (C75 : normal (Prim2SF 0.75) 0 0)
    by (apply (normal_const 0.75 6755399441055744 (-53)); reflexivity).
  repeat match goal with
         | |- context [if ?b then _ else _] => destruct b
         end; try assumption.
  rewrite FloatAxioms.mul_spec.
  destruct (recip_class distance) as [E|N].
  - left. rewrite E. destruct C75 as (m & e & -> & _). reflexivity.
  - right. refine (normal_weaken _ _ _ _ _
                     (SFmul_normal _ _ _ _ _ _ N C75 _ _) _ _); lia.
Qed.

Lemma SFmul_big x y : big x -> big y -> nonneg (SFmul prec emax x y).
Proof.
  intros [->|Nx] [->|Ny].
  - reflexivity.
  - destruct Ny as (m & e & -> & _). reflexivity.
  - destruct Nx as (m & e & -> & _). reflexivity.
  - exact (normal_nonneg _ _ _
             (SFmul_normal _ _ _ _ _ _ Nx Ny ltac:(lia) ltac:(lia))).
Qed.

(** Lines 74-105: [score_for_char] is not below zero. *)
Lemma score_for_char_nonneg m h i :
  big (Prim2SF (max_score_per_char m)) ->
  nonneg (Prim2SF (score_for_char_of m h i)).
Proof.
  intros B. unfold score_for_char_of. cbv zeta.
  destruct (i - h >? 1).
  - rewrite FloatAxioms.mul_spec. apply SFmul_big; [exact B|apply factor_of_big].
  - apply big_nonneg, B.
Qed.

(** ** order of doubles *)

Lemma leb_zero_nonneg x : PrimFloat.leb 0 x = true <-> nonneg (Prim2SF x).
Proof.
  rewrite FloatAxioms.leb_spec. change (Prim2SF 0) with (S754_zero false).
  destruct (Prim2SF x) as [s|s| |s m e]; cbn; unfold SFleb; cbn;
    try (destruct s; cbn); intuition congruence.
Qed.

Lemma add_nonneg (c x : float) :
  PrimFloat.leb 0 c = true -> PrimFloat.leb 0 x = true ->
  PrimFloat.leb 0 (c + x) = true.
Proof.
  rewrite !leb_zero_nonneg, FloatAxioms.add_spec. apply SFadd_nonneg.
Qed.

(** [c + x <= c + y] for doubles [0 <= c], [0 <= x <= y]. *)
Lemma add_mono (c x y : float) :
  PrimFloat.leb 0 c = true -> PrimFloat.leb 0 x = true ->
  PrimFloat.leb x y = true ->
  PrimFloat.leb (c + x) (c + y) = true.
Proof.
  rewrite !leb_zero_nonneg. intros Hc Hx Hxy.
  rewrite FloatAxioms.leb_spec in *. rewrite !FloatAxioms.add_spec.
  apply SFadd_mono; auto using Prim2SF_valid.
Qed.

Lemma SFleb_ltb_trans a b c :
  SFleb a b = true -> SFltb b c = true -> SFleb a c = true.
Proof.
  unfold SFltb, SFleb.
  destruct a as [sa|sa| |sa ma ea], b as [sb|sb| |sb mb eb],
           c as [sc|sc| |sc mc ec]; cbn;
    try discriminate; try reflexivity;
    repeat match goal with s : bool |- _ => destruct s end;
    try discriminate; try reflexivity;
    rewrite ?Pos.compare_cont_spec; cbn [Pos.switch_Eq];
    destruct (Z.compare_spec ea eb), (Z.compare_spec eb ec),
             (Z.compare_spec ea ec);
    try discriminate; try reflexivity; try lia; subst;
    destruct (Pos.compare_spec ma mb), (Pos.compare_spec mb mc),
             (Pos.compare_spec ma mc);
    cbn; try discriminate; try reflexivity; try lia.
Qed.

Lemma SFleb_not_ltb a b : SFleb a b = true -> SFltb b a = false.
Proof.
  unfold SFltb, SFleb.
  destruct a as [sa|sa| |sa ma ea], b as [sb|sb| |sb mb eb]; cbn;
    try discriminate; try reflexivity;
    repeat match goal with s : bool |- _ => destruct s end;
    try discriminate; try reflexivity;
    rewrite (Z.compare_antisym ea eb), !Pos.compare_cont_spec;
    cbn [Pos.switch_Eq]; rewrite (Pos.compare_antisym ma mb);
    destruct (ea ?= eb), (ma ?= mb)%positive; cbn;
    try discriminate; try reflexivity.
Qed.

Lemma SFleb_refl_nonneg a : nonneg a -> SFleb a a = true.
Proof.
  unfold SFleb. destruct a as [s|s| |s m e]; cbn; try reflexivity;
    try contradiction; intros ->; try reflexivity.
  rewrite Z.compare_refl, Pos.compare_cont_spec, Pos.compare_refl.
  reflexivity.
Qed.

Lemma nonneg_above_NON_MATCH a : nonneg a -> SFltb (Prim2SF NON_MATCH) a = true.
Proof.
  destruct a as [s|s| |s m e]; cbn; try contradiction;
    try (intros ->); intros; reflexivity.
Qed.

Lemma leb_ltb_trans (a b c : float) :
  PrimFloat.leb a b = true -> PrimFloat.ltb b c = true ->
  PrimFloat.leb a c = true.
Proof.
  rewrite !FloatAxioms.leb_spec, FloatAxioms.ltb_spec. apply SFleb_ltb_trans.
Qed.

Lemma leb_not_ltb (a b : float) :
  PrimFloat.leb a b = true -> PrimFloat.ltb b a = false.
Proof.
  rewrite FloatAxioms.leb_spec, FloatAxioms.ltb_spec. apply SFleb_not_ltb.
Qed.

Lemma leb_refl_nonneg (a : float) :
  PrimFloat.leb 0 a = true -> PrimFloat.leb a a = true.
Proof.
  rewrite leb_zero_nonneg, FloatAxioms.leb_spec. apply SFleb_refl_nonneg.
Qed.

Lemma NON_MATCH_below_nonneg (a : float) :
  PrimFloat.leb 0 a = true -> PrimFloat.ltb NON_MATCH a = true.
Proof.
  rewrite leb_zero_nonneg, FloatAxioms.ltb_spec. apply nonneg_above_NON_MATCH.
Qed.

Lemma SFleb_nonneg a b : nonneg a -> SFleb a b = true -> nonneg b.
Proof.
  unfold SFleb.
  destruct a as [sa|sa| |sa ma ea], b as [sb|sb| |sb mb eb]; cbn;
    try contradiction; try discriminate; auto;
    try (intros ->); try (destruct sa); destruct sb; cbn;
    try discriminate; auto.
Qed.

Lemma leb_nonneg (a b : float) :
  PrimFloat.leb 0 a = true -> PrimFloat.leb a b = true ->
  PrimFloat.leb 0 b = true.
Proof.
  rewrite !leb_zero_nonneg, FloatAxioms.leb_spec. apply SFleb_nonneg.
Qed.

(** ** The first match of the loop of [recursive_match] *)

Lemma In_positions from n x :
  In x (positions from n) <-> from <= x < from + Z.of_nat n.
Proof.
  unfold positions. rewrite in_map_iff. split.
  - intros (j & <- & Hj). apply in_seq in Hj. lia.
  - intros H. exists (Z.to_nat (x - from)). split; [lia|].
    apply in_seq. lia.
Qed.

Lemma dot_wall_in_range_false m :
  dot_wall_in_range m = false ->
  forall k i, 0 <= k < needle_len m ->
    leftmost_of m (Z.to_nat k) <= i <= rightmost_of m k ->
    fold_haystack_char m (char_at (needle_p m) k) i <> None.
Proof.
  intros H k i Hk Hi E.
  assert (T : dot_wall_in_range m = true); [|congruence].
  unfold dot_wall_in_range. apply existsb_exists. exists (Z.to_nat k). split.
  - apply in_seq. lia.
  - rewrite Z2Nat.id by lia. apply existsb_exists. exists i. split.
    + apply In_positions. lia.
    + unfold walled. rewrite E. reflexivity.
Qed.

Lemma first_from_ge m c : forall n i, i <= first_from m c n i.
Proof.
  induction n as [|n IH]; intros i; cbn [first_from]; [lia|].
  destruct (fold_haystack_char m c i) as [d|]; [|lia].
  destruct (c =? d); [lia|]. specialize (IH (i + 1)). lia.
Qed.

Lemma first_from_le_match m c : forall n i i0,
  i <= i0 < i + Z.of_nat n ->
  fold_haystack_char m c i0 = Some c ->
  first_from m c n i <= i0.
Proof.
  induction n as [|n IH]; intros i i0 Hi E; [lia|].
  cbn [first_from].
  destruct (fold_haystack_char m c i) as [d|] eqn:Ei; [|lia].
  destruct (c =? d) eqn:N; [lia|].
  apply IH; [|exact E].
  destruct (Z.eq_dec i i0) as [->|Hne]; [|lia].
  rewrite E in Ei. injection Ei as <-. rewrite Z.eqb_refl in N. discriminate.
Qed.

Lemma leftmost_of_ge m : forall k, Z.of_nat k <= leftmost_of m k.
Proof.
  induction k as [|k IH]; [cbn; lia|].
  cbn [leftmost_of]. cbv zeta.
  pose proof (first_from_ge m (char_at (needle_p m) (Z.of_nat k))
                (Z.to_nat (rightmost_of m (Z.of_nat k) + 1 - leftmost_of m k))
                (leftmost_of m k)).
  lia.
Qed.

Lemma nth_all_unset l n :
  Forall (fun v => v = UNSET) l -> nth n l UNSET = UNSET.
Proof.
  intros H. revert n. induction H as [|x l Hx _ IH]; intros [|n]; cbn; auto.
Qed.

Lemma fold_haystack_char_key m c i d :
  fold_haystack_char m c i = Some d ->
  d = haystack_key (case_sensitive m) (char_at (haystack_p m) i).
Proof.
  unfold fold_haystack_char, haystack_key, lower_of.
  destruct (char_at (haystack_p m) i =? ch ".") eqn:Ed.
  - apply Z.eqb_eq in Ed. rewrite Ed.
    destruct ((i =? 0) || (char_at (haystack_p m) (i - 1) =? ch "/"));
      [destruct (never_show_dot_files m ||
                 negb (c =? ch ".") && negb (always_show_dot_files m));
       [discriminate|]|];
      intros H; injection H as <-; destruct (case_sensitive m); reflexivity.
  - destruct (case_sensitive m); cbn [negb];
      rewrite ?andb_false_r, ?andb_true_r;
      [intros H; injection H as <-; reflexivity|].
    destruct ((ch "A" <=? char_at (haystack_p m) i) &&
              (char_at (haystack_p m) i <=? ch "Z"));
      intros H; injection H as <-; reflexivity.
Qed.

Lemma bind_Done {A B} (c : memoM A) (k : A -> memoM B) s r :
  bind c k s = Done r ->
  exists a s', c s = Done (a, s') /\ k a s' = Done r.
Proof.
  unfold bind. destruct (c s) as [[a s']|j]; [eauto|discriminate].
Qed.

Lemma memoized_value idx v s r s' :
  (_ <- memo_write idx v ;; ret v) s = Done (r, s') -> r = v.
Proof.
  unfold bind, memo_write, ret.
  destruct (in_table idx (cells s)); [|discriminate].
  intros H. injection H as <- _. reflexivity.
Qed.

Section FirstMatch.

Variable m : matchinfo_t.

Hypothesis msc_big : big (Prim2SF (max_score_per_char m)).
Hypothesis rm_spec : forall k, 0 <= k < needle_len m ->
  k <= rightmost_of m k /\
  haystack_key (case_sensitive m) (char_at (haystack_p m) (rightmost_of m k)) =
    char_at (needle_p m) k /\
  (k + 1 < needle_len m -> rightmost_of m k < rightmost_of m (k + 1)).
Hypothesis no_wall : forall k i,
  0 <= k < needle_len m ->
  leftmost_of m (Z.to_nat k) <= i <= rightmost_of m k ->
  fold_haystack_char m (char_at (needle_p m) k) i <> None.

Lemma score_for_char_leb h i :
  PrimFloat.leb 0 (score_for_char_of m h i) = true.
Proof. apply leb_zero_nonneg, score_for_char_nonneg, msc_big. Qed.

Lemma recursive_match_rest_flag rest b h :
  recursive_match_rest (S rest) (with_all_scorings m b) h =
  let k := needle_len m - Z.of_nat (S rest) in
  if (k >? h) || (h + (needle_len m - k) >? last_rightmost m + 1)
  then ret NON_MATCH
  else
    memoized <- memo_read (k, h) (k * needle_len m + h) ;;
    if fne memoized UNSET then ret memoized
    else
      v <- for_loop (Z.to_nat (rightmost_of m k + 1 - h)) h NON_MATCH
             (loop_body (with_all_scorings m b)
                (recursive_match_rest rest (with_all_scorings m b)) h
                (char_at (needle_p m) k)) ;;
      _ <- memo_write (k * needle_len m + h) v ;;
      ret v.
Proof. reflexivity. Qed.

Lemma loop_body_match b call h c i score st :
  fold_haystack_char m c i = Some c ->
  loop_body (with_all_scorings m b) call h c i score st =
  match call (i + 1) st with
  | Done (r, st') =>
      let new_score := (score_for_char_of m h i + r)%float in
      if PrimFloat.ltb score new_score
      then if b then Done (Continue new_score, st')
           else Done (Break new_score, st')
      else Done (Continue score, st')
  | OutOfBounds j => OutOfBounds j
  end.
Proof.
  intros E. unfold loop_body.
  change (fold_haystack_char (with_all_scorings m b) c i)
    with (fold_haystack_char m c i).
  rewrite E, Z.eqb_refl. unfold bind.
  destruct (call (i + 1) st) as [[r st']|j]; [|reflexivity].
  change (score_for_char_of (with_all_scorings m b) h i)
    with (score_for_char_of m h i).
  unfold fgt. cbv zeta.
  destruct (PrimFloat.ltb score (score_for_char_of m h i + r)); [|reflexivity].
  destruct b; reflexivity.
Qed.

Lemma loop_body_skip b call h c i score st d :
  fold_haystack_char m c i = Some d -> (c =? d) = false ->
  loop_body (with_all_scorings m b) call h c i score st =
  Done (Continue score, st).
Proof.
  intros E N. unfold loop_body.
  change (fold_haystack_char (with_all_scorings m b) c i)
    with (fold_haystack_char m c i).
  rewrite E, N. reflexivity.
Qed.

(** Iterations at positions that do not carry the needle character leave
    the score and the table as they are. *)
Lemma for_loop_skip b call h c : forall n i score st n2,
  (forall j, i <= j < i + Z.of_nat n ->
     exists d, fold_haystack_char m c j = Some d /\ (c =? d) = false) ->
  for_loop (n + n2) i score (loop_body (with_all_scorings m b) call h c) st =
  for_loop n2 (i + Z.of_nat n) score
    (loop_body (with_all_scorings m b) call h c) st.
Proof.
  induction n as [|n IH]; intros i score st n2 H.
  - change (Z.of_nat 0) with 0. rewrite Z.add_0_r. reflexivity.
  - change (S n + n2)%nat with (S (n + n2)). rewrite for_loop_step.
    destruct (H i ltac:(lia)) as (d & E & N).
    rewrite (loop_body_skip _ _ _ _ _ _ _ _ E N).
    rewrite IH by (intros j Hj; apply H; lia).
    f_equal. lia.
Qed.

(** A range that ends in a match and holds no wall has a first match. *)
Lemma first_match c : forall n h r,
  r - h = Z.of_nat n ->
  (forall i, h <= i <= r -> fold_haystack_char m c i <> None) ->
  fold_haystack_char m c r = Some c ->
  exists i0, h <= i0 <= r /\ fold_haystack_char m c i0 = Some c /\
    forall j, h <= j < i0 ->
      exists d, fold_haystack_char m c j = Some d /\ (c =? d) = false.
Proof.
  induction n as [|n IH]; intros h r Hn Hw Hr.
  - assert (h = r) by lia. subst h. exists r.
    split; [lia|]. split; [exact Hr|]. intros j Hj. lia.
  - destruct (fold_haystack_char m c h) as [d|] eqn:E;
      [|exfalso; apply (Hw h); [lia|exact E]].
    destruct (c =? d) eqn:N.
    + apply Z.eqb_eq in N. subst d. exists h.
      split; [lia|]. split; [exact E|]. intros j Hj. lia.
    + destruct (IH (h + 1) r ltac:(lia)) as (i0 & Hi & E0 & Hb);
        [intros i Hi; apply Hw; lia|exact Hr|].
      exists i0. split; [lia|]. split; [exact E0|].
      intros j Hj. destruct (Z.eq_dec j h) as [->|Hne]; [eauto|].
      apply Hb. lia.
Qed.

(** Without [break], the running maximum of line 109 never falls below a
    score it has reached, whatever the recursive calls return. *)
Lemma exhaustive_loop_above call h c base : forall n i score st v st',
  (forall j, i <= j < i + Z.of_nat n -> fold_haystack_char m c j <> None) ->
  PrimFloat.leb base score = true ->
  for_loop n i score (loop_body (with_all_scorings m true) call h c) st =
    Done (v, st') ->
  PrimFloat.leb base v = true.
Proof.
  induction n as [|n IH]; intros i score st v st' Hw Hs H.
  - injection H as <- _. exact Hs.
  - rewrite for_loop_step in H.
    destruct (fold_haystack_char m c i) as [d|] eqn:E;
      [|exfalso; apply (Hw i); [lia|exact E]].
    assert (Hw' : forall j, i + 1 <= j < i + 1 + Z.of_nat n ->
                            fold_haystack_char m c j <> None)
      by (intros j Hj; apply Hw; lia).
    destruct (c =? d) eqn:N.
    + apply Z.eqb_eq in N. subst d.
      rewrite (loop_body_match _ _ _ _ _ _ _ E) in H.
      destruct (call (i + 1) st) as [[r st1]|j]; [|discriminate].
      cbv zeta in H.
      destruct (PrimFloat.ltb score (score_for_char_of m h i + r)) eqn:L.
      * refine (IH _ _ _ _ _ Hw' _ H).
        exact (leb_ltb_trans _ _ _ Hs L).
      * exact (IH _ _ _ _ _ Hw' Hs H).
    + rewrite (loop_body_skip _ _ _ _ _ _ _ _ E N) in H.
      exact (IH _ _ _ _ _ Hw' Hs H).
Qed.

(** The rightmost matches leave room for the needle characters between. *)
Lemma rightmost_gap : forall n k,
  0 <= k -> k + Z.of_nat n < needle_len m ->
  rightmost_of m k + Z.of_nat n <= rightmost_of m (k + Z.of_nat n).
Proof.
  induction n as [|n IH]; intros k Hk Hn.
  - change (Z.of_nat 0) with 0. rewrite !Z.add_0_r. lia.
  - specialize (IH k Hk ltac:(lia)).
    destruct (rm_spec (k + Z.of_nat n) ltac:(lia)) as (_ & _ & Hs).
    specialize (Hs ltac:(lia)).
    replace (k + Z.of_nat (S n)) with (k + Z.of_nat n + 1) by lia. lia.
Qed.

Lemma fne_UNSET : fne UNSET UNSET = false.
Proof. reflexivity. Qed.

(** Called on an unset table, the fast path returns the score of the first
    match of every needle character from [h] on, which is not below zero,
    and the exhaustive scan returns at least as much. *)
Lemma first_match_chain : forall rest h sf se vf ve sf' se',
  Z.of_nat rest <= needle_len m ->
  (rest <> O ->
   leftmost_of m (Z.to_nat (needle_len m - Z.of_nat rest)) <= h <=
     rightmost_of m (needle_len m - Z.of_nat rest)) ->
  all_unset sf -> all_unset se ->
  recursive_match_rest rest (with_all_scorings m false) h sf = Done (vf, sf') ->
  recursive_match_rest rest (with_all_scorings m true) h se = Done (ve, se') ->
  PrimFloat.leb 0 vf = true /\ PrimFloat.leb vf ve = true.
Proof.
  induction rest as [|rest IH]; intros h sf se vf ve sf' se' Hr Hk Uf Ue Hf He.
  - injection Hf as <- _. injection He as <- _. split; reflexivity.
  - specialize (Hk ltac:(discriminate)).
    rewrite recursive_match_rest_flag in Hf, He. cbv zeta in Hf, He.
    set (k := needle_len m - Z.of_nat (S rest)) in *.
    assert (Hk0 : 0 <= k < needle_len m) by (unfold k; lia).
    assert (Hkh : k <= h).
    { pose proof (leftmost_of_ge m (Z.to_nat k)) as Hl.
      rewrite Z2Nat.id in Hl by lia. lia. }
    assert (G : (k >? h) || (h + (needle_len m - k) >? last_rightmost m + 1)
                = false).
    { pose proof (rightmost_gap (Z.to_nat (needle_len m - 1 - k)) k
                    ltac:(lia) ltac:(lia)) as Hg.
      rewrite Z2Nat.id in Hg by lia.
      replace (k + (needle_len m - 1 - k)) with (needle_len m - 1) in Hg by lia.
      fold (rightmost_of m (needle_len m - 1)) in Hg.
      unfold last_rightmost. fold (rightmost_of m (needle_len m - 1)).
      apply orb_false_iff. split; rewrite Z.gtb_ltb; apply Z.ltb_ge; lia. }
    rewrite G in Hf, He.
    set (c := char_at (needle_p m) k) in *.
    set (r := rightmost_of m k) in *.
    (* the first position that carries the needle character *)
    assert (Er : fold_haystack_char m c r = Some c).
    { destruct (fold_haystack_char m c r) as [d|] eqn:E;
        [|exfalso; apply (no_wall k r Hk0); [lia|exact E]].
      rewrite (fold_haystack_char_key _ _ _ _ E).
      destruct (rm_spec k Hk0) as (_ & Hm & _). f_equal. exact Hm. }
    destruct (first_match c (Z.to_nat (r - h)) h r ltac:(lia)) as
      (i0 & Hi0 & E0 & Hbefore);
      [intros i Hi; apply (no_wall k i Hk0); lia|exact Er|].
    assert (Hcount : Z.to_nat (r + 1 - h) =
                     (Z.to_nat (i0 - h) + S (Z.to_nat (r - i0)))%nat) by lia.
    rewrite Hcount in Hf, He.
    (* the fast path *)
    apply bind_Done in Hf. destruct Hf as (u & sf1 & Rf & Hf).
    unfold memo_read in Rf.
    destruct (in_table (k * needle_len m + h) (cells sf)); [|discriminate].
    injection Rf as <- <-.
    rewrite (nth_all_unset _ _ Uf), fne_UNSET in Hf.
    apply bind_Done in Hf. destruct Hf as (v1 & sf2 & Lf & Hf).
    apply memoized_value in Hf. subst v1.
    rewrite for_loop_skip in Lf
      by (intros j Hj; apply Hbefore; lia).
    replace (h + Z.of_nat (Z.to_nat (i0 - h))) with i0 in Lf by lia.
    rewrite for_loop_step, (loop_body_match _ _ _ _ _ _ _ E0) in Lf.
    destruct (recursive_match_rest rest (with_all_scorings m false) (i0 + 1) _)
      as [[rf sf3]|j] eqn:Cf; [|discriminate].
    (* the exhaustive scan *)
    apply bind_Done in He. destruct He as (u & se1 & Re & He).
    unfold memo_read in Re.
    destruct (in_table (k * needle_len m + h) (cells se)); [|discriminate].
    injection Re as <- <-.
    rewrite (nth_all_unset _ _ Ue), fne_UNSET in He.
    apply bind_Done in He. destruct He as (v1 & se2 & Le & He).
    apply memoized_value in He. subst v1.
    rewrite for_loop_skip in Le
      by (intros j Hj; apply Hbefore; lia).
    replace (h + Z.of_nat (Z.to_nat (i0 - h))) with i0 in Le by lia.
    rewrite for_loop_step, (loop_body_match _ _ _ _ _ _ _ E0) in Le.
    destruct (recursive_match_rest rest (with_all_scorings m true) (i0 + 1) _)
      as [[re se3]|j] eqn:Ce; [|discriminate].
    (* the two calls after the first match *)
    assert (P : PrimFloat.leb 0 rf = true /\ PrimFloat.leb rf re = true).
    { eapply (IH (i0 + 1)); [ | | | |exact Cf|exact Ce];
        [lia| |exact Uf|exact Ue].
      intros Hrest.
      replace (needle_len m - Z.of_nat rest) with (k + 1) by (unfold k; lia).
      destruct (rm_spec k Hk0) as (_ & _ & Hs).
      specialize (Hs ltac:(unfold k; lia)). fold r in Hs.
      split; [|lia].
      replace (Z.to_nat (k + 1)) with (S (Z.to_nat k)) by lia.
      cbn [leftmost_of]. cbv zeta. rewrite Z2Nat.id by lia.
      fold c. fold r.
      pose proof (first_from_le_match m c
                    (Z.to_nat (r + 1 - leftmost_of m (Z.to_nat k)))
                    (leftmost_of m (Z.to_nat k)) i0 ltac:(lia) E0).
      lia. }
    destruct P as [P0 P1].
    cbv zeta in Lf, Le.
    pose proof (score_for_char_leb h i0) as S0.
    pose proof (add_nonneg _ _ S0 P0) as N0.
    pose proof (add_mono _ _ _ S0 P0 P1) as M0.
    rewrite (NON_MATCH_below_nonneg _ N0) in Lf.
    injection Lf as <- _.
    split; [exact N0|].
    assert (Ne : PrimFloat.ltb NON_MATCH (score_for_char_of m h i0 + re) = true)
      by (apply NON_MATCH_below_nonneg, add_nonneg;
          [exact S0|exact (leb_nonneg _ _ P0 P1)]).
    rewrite Ne in Le.
    refine (exhaustive_loop_above _ _ _ _ _ _ _ _ _ _ _ M0 Le).
    intros j Hj. apply (no_wall k j Hk0). lia.
Qed.

End FirstMatch.

(** ** The exhaustive scan is not below the fast path *)

(** The table of rightmost matches: each entry carries its needle
    character, and the entries increase. *)
Lemma rightmost_entries shl haystack needle cs al nv all nb hb m size b :
  prepare shl haystack needle cs al nv all nb hb = Search m size b ->
  forall k, 0 <= k < needle_len m ->
    k <= rightmost_of m k /\
    haystack_key (case_sensitive m)
      (char_at (haystack_p m) (rightmost_of m k)) = char_at (needle_p m) k /\
    (k + 1 < needle_len m -> rightmost_of m k < rightmost_of m (k + 1)).
Proof.
  intros P.
  destruct (prepare_search _ _ _ _ _ _ _ _ _ _ _ _ P)
    as (Hhp & Hnp & Hlen & _ & _ & Hcs & _).
  destruct (prepare_search_scan _ _ _ _ _ _ _ _ _ _ _ _ P)
    as (Hn & Hh & Hc & Hrm & Hhl & _).
  pose proof (scanned_scan shl (codes haystack) (codes needle) cs (hb =? 0)
                (Z.to_nat (len (codes haystack))) (scan_start (codes needle))
                ltac:(lia)) as S.
  rewrite Z2Nat.id in S by lia.
  specialize (S (scanned_start _ _ _)).
  destruct S as (_ & _ & Sk & _). rewrite Hc in Sk.
  unfold next_match, rightmost_at in Sk.
  unfold rightmost_of. rewrite Hrm, Hhp, Hnp, Hlen, Hcs.
  set (rm := fun k => nth (Z.to_nat k)
                (rightmost (scan shl (codes haystack) (codes needle) cs
                   (hb =? 0) (Z.to_nat (len (codes haystack)))
                   (scan_start (codes needle)))) 0) in *.
  assert (Hlow : forall j, Z.of_nat j < len (codes needle) ->
                           Z.of_nat j <= rm (Z.of_nat j)).
  { induction j as [|j IH]; intros Hj.
    - destruct (Sk 0 ltac:(lia)) as (Hr & _). fold (rm 0) in Hr.
      change (Z.of_nat 0) with 0. lia.
    - destruct (Sk (Z.of_nat j) ltac:(lia)) as (_ & _ & Hs & _).
      fold (rm (Z.of_nat j)) (rm (Z.of_nat j + 1)) in Hs.
      specialize (IH ltac:(lia)). specialize (Hs ltac:(lia)).
      replace (Z.of_nat (S j)) with (Z.of_nat j + 1) by lia. lia. }
  intros k Hk.
  destruct (Sk k ltac:(lia)) as (Hr & Hm & Hs & _).
  fold (rm k) (rm (k + 1)) in *.
  split; [|split; assumption].
  specialize (Hlow (Z.to_nat k)). rewrite Z2Nat.id in Hlow by lia.
  apply Hlow. lia.
Qed.

Lemma prepare_max_score shl haystack needle cs al nv all nb hb m size b :
  prepare shl haystack needle cs al nv all nb hb = Search m size b ->
  big (Prim2SF (max_score_per_char m)).
Proof.
  unfold prepare.
  repeat match goal with
         | |- context [if ?b then _ else _] => destruct b
         end; try discriminate.
  all: intros H; injection H as <- _ _; cbn [max_score_per_char];
    apply max_score_per_char_big.
Qed.

Lemma prepare_early_score shl haystack needle cs al nv all nb hb s b :
  prepare shl haystack needle cs al nv all nb hb = Early s b ->
  PrimFloat.leb s s = true.
Proof.
  unfold prepare.
  repeat match goal with
         | |- context [if ?b then _ else _] => destruct b
         end; try discriminate.
  all: intros H; injection H as <- _; reflexivity.
Qed.

Lemma final_score_nonneg v :
  PrimFloat.leb 0 v = true -> final_score v = v.
Proof.
  intros H. unfold final_score.
  rewrite (ltb_neq _ _ (NON_MATCH_below_nonneg _ H)). reflexivity.
Qed.

Lemma all_unset_fresh size : all_unset (fresh_memo size).
Proof.
  unfold all_unset, fresh_memo. cbn [cells].
  apply Forall_forall. intros x Hx. exact (repeat_spec _ _ _ Hx).
Qed.

(** C9, amended.  Let no position that the loop of line 57 can visit make
    line 66 return: for no needle index [k] does a [.] that starts a path
    segment, and that the options forbid for the needle character [k], lie
    between the leftmost position at which the loop can start for [k] and
    [rightmost_match_p[k]].  Then, whenever both calls return, the score
    with every scoring computed is not below the score of the fast path.
    The needle is of any length: the proof follows the recursion along the
    first match of every needle character, where both calls find the memo
    table still unset, and nothing that the exhaustive scan reads from the
    table afterwards can lower its running maximum. *)
Theorem exhaustive_not_below_fast shl haystack needle cs al nv nb hb e f :
  dot_wall_in_scan_range shl haystack needle cs al nv nb hb = false ->
  score_match shl haystack needle cs al nv true nb hb = Done e ->
  score_match shl haystack needle cs al nv false nb hb = Done f ->
  PrimFloat.leb f e = true.
Proof.
  unfold dot_wall_in_scan_range, score_match, calculate_match.
  rewrite (prepare_all_scorings shl haystack needle cs al nv true).
  destruct (prepare shl haystack needle cs al nv false nb hb)
    as [score bitmask|m size bitmask] eqn:P.
  - intros _ He Hf. injection He as <-. injection Hf as <-.
    exact (prepare_early_score _ _ _ _ _ _ _ _ _ _ _ P).
  - intros Hwall He Hf.
    destruct (prepare_search _ _ _ _ _ _ _ _ _ _ _ _ P)
      as (_ & _ & _ & _ & _ & _ & Hall & _).
    destruct (prepare_search_scan _ _ _ _ _ _ _ _ _ _ _ _ P)
      as (Hn & _).
    destruct (prepare_search _ _ _ _ _ _ _ _ _ _ _ _ P)
      as (_ & _ & Hlen & _).
    pose proof (with_all_scorings_same m) as Hm. rewrite Hall in Hm.
    rewrite <- Hm in Hf at 1.
    unfold recursive_match in He, Hf.
    change (needle_len (with_all_scorings m true)) with (needle_len m) in He.
    change (needle_len (with_all_scorings m false)) with (needle_len m) in Hf.
    destruct (recursive_match_rest _ (with_all_scorings m true) 0 _)
      as [[ve se]|j] eqn:Re; [|discriminate].
    destruct (recursive_match_rest _ (with_all_scorings m false) 0 _)
      as [[vf sf]|j] eqn:Rf; [|discriminate].
    cbn [score_of] in He, Hf. injection He as <-. injection Hf as <-.
    destruct (first_match_chain m
                (prepare_max_score _ _ _ _ _ _ _ _ _ _ _ _ P)
                (rightmost_entries _ _ _ _ _ _ _ _ _ _ _ _ P)
                (dot_wall_in_range_false m Hwall)
                (Z.to_nat (needle_len m - 0)) 0
                (fresh_memo size) (fresh_memo size) vf ve sf se)
      as [P0 P1]; try assumption; try apply all_unset_fresh; try lia.
    + intros _. rewrite Z2Nat.id by lia.
      replace (needle_len m - (needle_len m - 0)) with 0 by lia.
      change (leftmost_of m (Z.to_nat 0)) with 0.
      destruct (rightmost_entries _ _ _ _ _ _ _ _ _ _ _ _ P 0 ltac:(lia))
        as (H0 & _). lia.
    + rewrite (final_score_nonneg _ P0).
      rewrite (final_score_nonneg _ (leb_nonneg _ _ P0 P1)). exact P1.
Qed.

Lemma exhaustive_not_below_fast_witness :
  dot_wall_in_scan_range shl_x86 "a/xb/ab/.c" "ab" false false false 0 0
    = false /\
  score_match shl_x86 "a/xb/ab/.c" "ab" false false false true 0 0 =
    Done 0.57000000000000006%float /\
  score_match shl_x86 "a/xb/ab/.c" "ab" false false false false 0 0 =
    Done 0.41249999999999998%float /\
  PrimFloat.leb 0.41249999999999998 0.57000000000000006 = true.
Proof.
  assert (W : dot_wall_in_scan_range shl_x86 "a/xb/ab/.c" "ab" false false
                false 0 0 = false) by (vm_compute; reflexivity).
  assert (E : score_match shl_x86 "a/xb/ab/.c" "ab" false false false true 0 0
              = Done 0.57000000000000006%float) by (vm_compute; reflexivity).
  assert (F : score_match shl_x86 "a/xb/ab/.c" "ab" false false false false 0 0
              = Done 0.41249999999999998%float) by (vm_compute; reflexivity).
  split; [exact W|]. split; [exact E|]. split; [exact F|].
  exact (exhaustive_not_below_fast _ _ _ _ _ _ _ _ _ _ W E F).
Defined.
